(** * cppcodegen: indentation-aware code snippets, blocks and classes

    A shallow embedding of [include/cppcodegen.h] and the properties of its
    rendering and re-indentation operations.

    Conventions of the embedding:
    - [std::string] is [string] (a sequence of 8-bit characters, unbounded);
    - [std::size_t] is [N], taken as 64 bits wide: every addition the header
      performs on it is reduced modulo [2^64] ([size_add]);
    - [std::vector<T>] is [list T], [emplace_back] appends at the end;
    - [std::unordered_map<AccessSpecifier, std::vector<Snippet>>] is
      [gmap AccessSpecifier (list Snippet.t)]; [.at(k)] is a lookup that may
      fail (the exception it throws becomes [None]), [operator[]] inserts.  *)

From Stdlib Require Import Ascii NArith.
From stdpp Require Import base option list gmap strings countable.

Open Scope string_scope.
Open Scope list_scope.

(** ** Strings *)

(** The line feed that [std::getline] splits on and that every rendered
    line ends with. *)
Definition newline : ascii := Ascii.ascii_of_nat 10.
Definition nl : string := String newline "".

(** [concat_strings] is the text obtained by writing the pieces one after
    the other; it is the closed form the rendering loops are compared to. *)
Fixpoint concat_strings (l : list string) : string :=
  match l with
  | [] => ""
  | s :: l' => s +:+ concat_strings l'
  end.

(** Every character of [s] is [c]. *)
Fixpoint all_chars (c : ascii) (s : string) : bool :=
  match s with
  | "" => true
  | String c' s' => bool_decide (c' = c) && all_chars c s'
  end.

(** [s] holds no line feed. *)
Fixpoint no_newline (s : string) : bool :=
  match s with
  | "" => true
  | String c s' => negb (bool_decide (c = newline)) && no_newline s'
  end.

(** ** [std::size_t] *)

Definition size_modulus : N := 2 ^ 64.

(** Unsigned addition as the machine performs it. *)
Definition size_add (a b : N) : N := ((a + b) mod size_modulus)%N.

(** The counting loops of the header,
    [k = 0; while (k < bound) { acc += piece; k++; }]. *)
Fixpoint append_times (bound : nat) (piece acc : string) : string :=
  match bound with
  | O => acc
  | S bound' => append_times bound' piece (acc +:+ piece)
  end.

(** ** Tags and enumerations *)

Inductive NodeType :=
  | kLine | kSystemInclude | kLocalInclude | kCodeBlock | kDefinition | kNamespace.

Inductive AccessSpecifier := kPublic | kProtected | kPrivate.

Global Instance AccessSpecifier_eq_dec : EqDecision AccessSpecifier.
Proof. solve_decision. Defined.

Global Instance AccessSpecifier_countable : Countable AccessSpecifier.
Proof.
  refine (inj_countable'
    (λ a, match a with kPublic => 0%nat | kProtected => 1%nat | kPrivate => 2%nat end)
    (λ n, match n with 0%nat => kPublic | 1%nat => kProtected | _ => kPrivate end) _).
  by intros [].
Defined.

Definition kDefaultIndentSize : N := 2.

(** ** Indent *)

Module Indent.

Record t := mk {
  level_ : N;
  size_ : N;
  character_ : ascii;
  indent_string_ : string;
}.

(** [Indent(level, size, character)]: the constructor fills
    [indent_string_] with [size] copies of [character]. *)
Definition new (level size : N) (character : ascii) : t :=
  {| level_ := level;
     size_ := size;
     character_ := character;
     indent_string_ := append_times (N.to_nat size) (String character "") "" |}.

(** [Indent(level, size)] with the default argument [character = ' ']. *)
Definition new_default (level size : N) : t := new level size " ".

(** [Indenting()]: [indent_string_] appended [level_] times. *)
Definition Indenting (i : t) : string :=
  append_times (N.to_nat (level_ i)) (indent_string_ i) "".

(** [indent_.level_ += level], the only mutation the nodes perform. *)
Definition add_level (i : t) (level : N) : t :=
  {| level_ := size_add (level_ i) level;
     size_ := size_ i;
     character_ := character_ i;
     indent_string_ := indent_string_ i |}.

End Indent.

(** ** What [Snippet::Add<T>] asks of [T]: a member [Out()].

    [Out] of a [Class] goes through [unordered_map::at], which throws when
    the key is missing; a result of [None] stands for that. *)
Class HasOut (T : Type) := out : T → option string.
Global Hint Mode HasOut ! : typeclass_instances.

(** ** [std::getline] on a [std::stringstream] *)

(** The characters up to the first line feed, and what follows it. *)
Fixpoint read_until_newline (s : string) : string * string :=
  match s with
  | "" => ("", "")
  | String c s' =>
      if bool_decide (c = newline) then ("", s')
      else let '(line, rest) := read_until_newline s' in (String c line, rest)
  end.

(** One call [std::getline(stream, line)]: it fails (the stream converts to
    false) exactly when no character is left; otherwise it yields the line
    and the remaining input. *)
Definition getline (stream : string) : option (string * string) :=
  match stream with
  | "" => None
  | _ => Some (read_until_newline stream)
  end.

(** [while (std::getline(line_stream, line)) lines_.emplace_back(line);] *)
Fixpoint getline_loop (fuel : nat) (stream : string) (lines : list string)
    : list string :=
  match fuel with
  | O => lines
  | S fuel' =>
      match getline stream with
      | None => lines
      | Some (line, rest) => getline_loop fuel' rest (lines ++ [line])
      end
  end.

(** Each successful [getline] consumes at least one character, so the
    length of the text bounds the number of iterations. *)
Definition absorb_lines (text : string) (lines : list string) : list string :=
  getline_loop (String.length text) text lines.

(** The lines of a text, by structural recursion: the reference the loop is
    compared to. A final line feed does not open a further line. *)
Fixpoint split_lines_from (line : string) (s : string) : list string :=
  match s with
  | "" => match line with "" => [] | _ => [line] end
  | String c s' =>
      if bool_decide (c = newline) then line :: split_lines_from "" s'
      else split_lines_from (line +:+ String c "") s'
  end.

Definition split_lines (s : string) : list string := split_lines_from "" s.

(** ** Snippet *)

Module Snippet.

Record t := mk {
  indent_ : Indent.t;
  header_ : string;
  footer_ : string;
  type_ : NodeType;
  lines_ : list string;
}.

(** [Snippet(LineType, indent)] *)
Definition line (indent : Indent.t) : t :=
  {| indent_ := indent; header_ := ""; footer_ := "";
     type_ := kLine; lines_ := [] |}.

(** [Snippet(SystemIncludeType, indent)] *)
Definition system_include (indent : Indent.t) : t :=
  {| indent_ := indent; header_ := "#include <"; footer_ := ">";
     type_ := kSystemInclude; lines_ := [] |}.

(** [Snippet(LocalIncludeType, base_dir_path, indent)] *)
Definition local_include (base_dir_path : string) (indent : Indent.t) : t :=
  {| indent_ := indent;
     header_ := "#include " +:+ String (Ascii.ascii_of_nat 34) "" +:+ base_dir_path;
     footer_ := String (Ascii.ascii_of_nat 34) "";
     type_ := kLocalInclude; lines_ := [] |}.

(** [Out()]:
    [for (line : lines_) snippet += indent_.Indenting() + line + "\n";] *)
Definition Out (s : t) : string :=
  fold_left
    (λ snippet line, snippet +:+ ((Indent.Indenting (indent_ s) +:+ line) +:+ nl))
    (lines_ s) "".

Definition GetType (s : t) : NodeType := type_ s.

Definition with_lines (s : t) (lines : list string) : t :=
  {| indent_ := indent_ s; header_ := header_ s; footer_ := footer_ s;
     type_ := type_ s; lines_ := lines |}.

(** [Add(const std::string &line)] *)
Definition Add (s : t) (line : string) : t :=
  with_lines s (lines_ s ++ [(header_ s +:+ line) +:+ footer_ s]).

(** [template <typename T> Add(const T &any)] *)
Definition Add_any {T} `{HasOut T} (s : t) (any : T) : option t :=
  text ← out any;
  Some (with_lines s (absorb_lines text (lines_ s))).

(** [Add(const std::vector<std::string> &lines)] *)
Definition Add_lines (s : t) (lines : list string) : t :=
  fold_left Add lines s.

(** [IncrementIndent(level)] *)
Definition IncrementIndent (s : t) (level : N) : t :=
  {| indent_ := Indent.add_level (indent_ s) level;
     header_ := header_ s; footer_ := footer_ s;
     type_ := type_ s; lines_ := lines_ s |}.

Global Instance has_out : HasOut t := λ s, Some (Out s).

End Snippet.

(** ** Block *)

Module Block.

Record t := mk {
  indent_ : Indent.t;
  header_ : string;
  footer_ : string;
  type_ : NodeType;
  snippets_ : list Snippet.t;
}.

(** [Block(CodeBlockType, indent)] *)
Definition code_block (indent : Indent.t) : t :=
  {| indent_ := indent; header_ := "{" +:+ nl; footer_ := "}" +:+ nl;
     type_ := kCodeBlock; snippets_ := [] |}.

(** [Block(DefinitionType, declaration, indent)] *)
Definition definition (declaration : string) (indent : Indent.t) : t :=
  {| indent_ := indent;
     header_ := declaration +:+ (" {" +:+ nl); footer_ := "}" +:+ nl;
     type_ := kDefinition; snippets_ := [] |}.

(** [Block(NamespaceType, name, indent)] *)
Definition namespace (name : string) (indent : Indent.t) : t :=
  {| indent_ := indent;
     header_ := ("namespace " +:+ name) +:+ (" {" +:+ nl); footer_ := "}" +:+ nl;
     type_ := kNamespace; snippets_ := [] |}.

(** [Out()] *)
Definition Out (b : t) : string :=
  let block := Indent.Indenting (indent_ b) +:+ header_ b in
  let block := fold_left (λ block snippet, block +:+ Snippet.Out snippet)
                 (snippets_ b) block in
  block +:+ (Indent.Indenting (indent_ b) +:+ footer_ b).

Definition GetType (b : t) : NodeType := type_ b.

(** [Snippet snippet_copy(line_t, Indent(indent_.level_ + 1, indent_.size_));]
    The third argument of [Indent] is left to its default, a space. *)
Definition snippet_copy (b : t) : Snippet.t :=
  Snippet.line
    (Indent.new_default (size_add (Indent.level_ (indent_ b)) 1)
                        (Indent.size_ (indent_ b))).

(** [snippets_.emplace_back(std::move(snippet_copy));] *)
Definition emplace_back (b : t) (snippet : Snippet.t) : t :=
  {| indent_ := indent_ b; header_ := header_ b; footer_ := footer_ b;
     type_ := type_ b; snippets_ := (snippets_ b ++ [snippet]) |}.

(** [template <typename T> Add(const T &any)] at [T = std::string]:
    [snippet_copy.Add(any)] is [Snippet::Add(const std::string &)]. *)
Definition Add (b : t) (line : string) : t :=
  emplace_back b (Snippet.Add (snippet_copy b) line).

(** [template <typename T> Add(const T &any)] at a node type [T]:
    [snippet_copy.Add(any)] is [Snippet::Add<T>]. *)
Definition Add_any {T} `{HasOut T} (b : t) (any : T) : option t :=
  snippet ← Snippet.Add_any (snippet_copy b) any;
  Some (emplace_back b snippet).

(** [Add(const std::vector<std::string> &lines)] *)
Definition Add_lines (b : t) (lines : list string) : t :=
  fold_left Add lines b.

(** [IncrementIndent(level)] *)
Definition IncrementIndent (b : t) (level : N) : t :=
  {| indent_ := Indent.add_level (indent_ b) level;
     header_ := header_ b; footer_ := footer_ b; type_ := type_ b;
     snippets_ := (λ snippet, Snippet.IncrementIndent snippet level) <$> snippets_ b |}.

Global Instance has_out : HasOut t := λ b, Some (Out b).

End Block.

(** ** Class *)

Module Class.

Record t := mk {
  indent_ : Indent.t;
  name_ : string;
  header_ : string;
  footer_ : string;
  type_ : NodeType;
  snippets_ : gmap AccessSpecifier (list Snippet.t);
}.

(** [Class(name, indent)] *)
Definition new (name : string) (indent : Indent.t) : t :=
  {| indent_ := indent; name_ := name;
     header_ := " {" +:+ nl; footer_ := "};" +:+ nl;
     type_ := kCodeBlock;
     snippets_ := list_to_map [(kPrivate, []); (kPublic, []); (kProtected, [])] |}.

(** One of the three guarded sections of [Out()]:
    [if (!snippets_.at(a).empty()) {
       block += indent_.Indenting() + label;
       for (snippet : snippets_.at(a)) block += snippet.Out();
     }] *)
Definition Out_section (c : t) (a : AccessSpecifier) (label : string)
    (block : string) : option string :=
  bucket ← snippets_ c !! a;
  match bucket with
  | [] => Some block
  | _ :: _ =>
      let block := block +:+ (Indent.Indenting (indent_ c) +:+ label) in
      bucket ← snippets_ c !! a;
      Some (fold_left (λ block snippet, block +:+ Snippet.Out snippet) bucket block)
  end.

(** [Out()] *)
Definition Out (c : t) : option string :=
  let block := ((Indent.Indenting (indent_ c) +:+ "class ") +:+ name_ c) +:+ header_ c in
  block ← Out_section c kPublic (" public:" +:+ nl) block;
  block ← Out_section c kProtected (" protected:" +:+ nl) block;
  block ← Out_section c kPrivate (" private:" +:+ nl) block;
  Some (block +:+ (Indent.Indenting (indent_ c) +:+ footer_ c)).

Definition GetType (c : t) : NodeType := type_ c.

(** [Snippet snippet_copy(line_t, Indent(indent_.level_ + 1, indent_.size_));] *)
Definition snippet_copy (c : t) : Snippet.t :=
  Snippet.line
    (Indent.new_default (size_add (Indent.level_ (indent_ c)) 1)
                        (Indent.size_ (indent_ c))).

(** [snippets_[access_specifier].emplace_back(std::move(snippet_copy));]
    [operator[]] creates an empty bucket when the key is absent. *)
Definition emplace_back (c : t) (access_specifier : AccessSpecifier)
    (snippet : Snippet.t) : t :=
  {| indent_ := indent_ c; name_ := name_ c;
     header_ := header_ c; footer_ := footer_ c; type_ := type_ c;
     snippets_ :=
       <[access_specifier :=
           (default [] (snippets_ c !! access_specifier) ++ [snippet])]>
         (snippets_ c) |}.

(** [Add(const T &any, access_specifier)] at [T = std::string] *)
Definition Add (c : t) (line : string) (access_specifier : AccessSpecifier) : t :=
  emplace_back c access_specifier (Snippet.Add (snippet_copy c) line).

(** [Add(const T &any, access_specifier)] at a node type [T] *)
Definition Add_any {T} `{HasOut T} (c : t) (any : T)
    (access_specifier : AccessSpecifier) : option t :=
  snippet ← Snippet.Add_any (snippet_copy c) any;
  Some (emplace_back c access_specifier snippet).

(** [Add(const std::vector<std::string> &lines, access_specifier)] *)
Definition Add_lines (c : t) (lines : list string)
    (access_specifier : AccessSpecifier) : t :=
  fold_left (λ c line, Add c line access_specifier) lines c.

(** [IncrementIndent(level)]: every bucket of the map is visited; the
    order of the visit does not show in the result. *)
Definition IncrementIndent (c : t) (level : N) : t :=
  {| indent_ := Indent.add_level (indent_ c) level; name_ := name_ c;
     header_ := header_ c; footer_ := footer_ c; type_ := type_ c;
     snippets_ :=
       fmap (M := gmap AccessSpecifier)
         (fmap (M := list) (λ snippet, Snippet.IncrementIndent snippet level))
         (snippets_ c) |}.

Global Instance has_out : HasOut t := Out.

(** The bucket of an access specifier, empty when the key is absent. *)
Definition bucket (c : t) (a : AccessSpecifier) : list Snippet.t :=
  default [] (snippets_ c !! a).

(** The three keys the constructor puts in the map are present. *)
Definition has_all_keys (c : t) : Prop :=
  is_Some (snippets_ c !! kPublic) ∧ is_Some (snippets_ c !! kProtected)
  ∧ is_Some (snippets_ c !! kPrivate).

Global Instance has_all_keys_dec c : Decision (has_all_keys c).
Proof. unfold has_all_keys. apply _. Defined.

End Class.

(** ** Nodes: the types [Add<T>] is instantiated at *)

Inductive Node :=
  | NSnippet (s : Snippet.t)
  | NBlock (b : Block.t)
  | NClass (c : Class.t).

Module Node.

Definition Out (n : Node) : option string :=
  match n with
  | NSnippet s => out s
  | NBlock b => out b
  | NClass c => out c
  end.

Global Instance has_out : HasOut Node := Out.

(** A node whose [Out()] cannot throw. *)
Definition well_formed (n : Node) : Prop :=
  match n with
  | NClass c => Class.has_all_keys c
  | _ => True
  end.

Global Instance well_formed_dec n : Decision (well_formed n).
Proof. destruct n; simpl; apply _. Defined.


(** [node.Add(line)]; the access specifier is an argument of the call
    only when the node is a [Class]. *)
Definition Add (n : Node) (line : string) (a : AccessSpecifier) : Node :=
  match n with
  | NSnippet s => NSnippet (Snippet.Add s line)
  | NBlock b => NBlock (Block.Add b line)
  | NClass c => NClass (Class.Add c line a)
  end.

(** [node.Add(lines)] *)
Definition Add_lines (n : Node) (lines : list string) (a : AccessSpecifier) : Node :=
  match n with
  | NSnippet s => NSnippet (Snippet.Add_lines s lines)
  | NBlock b => NBlock (Block.Add_lines b lines)
  | NClass c => NClass (Class.Add_lines c lines a)
  end.

(** [node.Add(other)] for a node [other] *)
Definition Add_any (n other : Node) (a : AccessSpecifier) : option Node :=
  match n with
  | NSnippet s => NSnippet <$> Snippet.Add_any s other
  | NBlock b => NBlock <$> Block.Add_any b other
  | NClass c => NClass <$> Class.Add_any c other a
  end.

(** [node.IncrementIndent(level)] *)
Definition IncrementIndent (n : Node) (level : N) : Node :=
  match n with
  | NSnippet s => NSnippet (Snippet.IncrementIndent s level)
  | NBlock b => NBlock (Block.IncrementIndent b level)
  | NClass c => NClass (Class.IncrementIndent c level)
  end.

End Node.

(** ** Sequences of calls on one [Block] or one [Class] *)

Module Calls.

Inductive block_call :=
  | BAdd (line : string)
  | BAddLines (lines : list string)
  | BAddNode (n : Node)
  | BIncrementIndent (level : N).

Inductive class_call :=
  | CAdd (line : string) (a : AccessSpecifier)
  | CAddLines (lines : list string) (a : AccessSpecifier)
  | CAddNode (n : Node) (a : AccessSpecifier)
  | CIncrementIndent (level : N).

Definition block_step (b : Block.t) (call : block_call) : option Block.t :=
  match call with
  | BAdd line => Some (Block.Add b line)
  | BAddLines lines => Some (Block.Add_lines b lines)
  | BAddNode n => Block.Add_any b n
  | BIncrementIndent level => Some (Block.IncrementIndent b level)
  end.

Definition class_step (c : Class.t) (call : class_call) : option Class.t :=
  match call with
  | CAdd line a => Some (Class.Add c line a)
  | CAddLines lines a => Some (Class.Add_lines c lines a)
  | CAddNode n a => Class.Add_any c n a
  | CIncrementIndent level => Some (Class.IncrementIndent c level)
  end.

Fixpoint block_run (calls : list block_call) (b : Block.t) : option Block.t :=
  match calls with
  | [] => Some b
  | call :: calls' => b' ← block_step b call; block_run calls' b'
  end.

Fixpoint class_run (calls : list class_call) (c : Class.t) : option Class.t :=
  match calls with
  | [] => Some c
  | call :: calls' => c' ← class_step c call; class_run calls' c'
  end.

(** The nodes a call absorbs are ones whose [Out()] returns. *)
Definition block_call_ok (call : block_call) : Prop :=
  match call with BAddNode n => Node.well_formed n | _ => True end.

Definition class_call_ok (call : class_call) : Prop :=
  match call with CAddNode n _ => Node.well_formed n | _ => True end.

End Calls.

(** ** Several named objects

    Objects live in variables; a statement mutates the object it is called
    on and may read another one through a [const] reference. *)

Module Program.

Inductive stmt :=
  | Add (x : string) (line : string) (a : AccessSpecifier)
  | AddLines (x : string) (lines : list string) (a : AccessSpecifier)
  | AddNode (x y : string) (a : AccessSpecifier)
  | IncrementIndent (x : string) (level : N).

(** The object a statement is called on, the only one it writes. *)
Definition target (st : stmt) : string :=
  match st with
  | Add x _ _ | AddLines x _ _ | AddNode x _ _ | IncrementIndent x _ => x
  end.

Definition exec (st : stmt) (σ : gmap string Node) : option (gmap string Node) :=
  match st with
  | Add x line a =>
      n ← σ !! x; Some (<[x := Node.Add n line a]> σ)
  | AddLines x lines a =>
      n ← σ !! x; Some (<[x := Node.Add_lines n lines a]> σ)
  | AddNode x y a =>
      n ← σ !! x; other ← σ !! y;
      n' ← Node.Add_any n other a; Some (<[x := n']> σ)
  | IncrementIndent x level =>
      n ← σ !! x; Some (<[x := Node.IncrementIndent n level]> σ)
  end.

Fixpoint run (prog : list stmt) (σ : gmap string Node) : option (gmap string Node) :=
  match prog with
  | [] => Some σ
  | st :: prog' => σ' ← exec st σ; run prog' σ'
  end.

(** [x.Out()] in a store. *)
Definition render (σ : gmap string Node) (x : string) : option string :=
  n ← σ !! x; Node.Out n.

End Program.

(** ** Invariants *)

(** What the constructor of [Indent] establishes and [add_level] keeps: the
    cached [indent_string_] is [size_] copies of [character_]. *)
Definition indent_cached (i : Indent.t) : Prop :=
  Indent.indent_string_ i
  = append_times (N.to_nat (Indent.size_ i)) (String (Indent.character_ i) "") "".

(** An [Indent] after a series of [level_ += k]. *)
Definition reindented (i : Indent.t) (increments : list N) : Indent.t :=
  fold_left Indent.add_level increments i.

Definition snippet_level (sn : Snippet.t) : N := Indent.level_ (Snippet.indent_ sn).
Definition block_level (b : Block.t) : N := Indent.level_ (Block.indent_ b).
Definition class_level (c : Class.t) : N := Indent.level_ (Class.indent_ c).

(** A child snippet as [Block::Add] and [Class::Add] make it and as
    [IncrementIndent] keeps it, relative to the [Indent] of its parent: its
    own [Indent] is [Indent(level + 1, size)] for the level and the unit
    width of the parent, the fill character being the default space. *)
Definition child_of (parent : Indent.t) (sn : Snippet.t) : Prop :=
  Snippet.indent_ sn
  = Indent.new_default (size_add (Indent.level_ parent) 1) (Indent.size_ parent).

Definition block_children_ok (b : Block.t) : Prop :=
  Forall (child_of (Block.indent_ b)) (Block.snippets_ b).

Definition class_children_ok (c : Class.t) : Prop :=
  ∀ a, Forall (child_of (Class.indent_ c)) (Class.bucket c a).

(** Apart from the level, the [Indent] of a parent stays as constructed. *)
Definition same_indent_shape (i i' : Indent.t) : Prop :=
  Indent.size_ i' = Indent.size_ i
  ∧ Indent.character_ i' = Indent.character_ i
  ∧ Indent.indent_string_ i' = Indent.indent_string_ i.

Definition block_frame (b b' : Block.t) : Prop :=
  Block.header_ b' = Block.header_ b ∧ Block.footer_ b' = Block.footer_ b
  ∧ Block.type_ b' = Block.type_ b
  ∧ same_indent_shape (Block.indent_ b) (Block.indent_ b').

Definition class_frame (c c' : Class.t) : Prop :=
  Class.name_ c' = Class.name_ c
  ∧ Class.header_ c' = Class.header_ c ∧ Class.footer_ c' = Class.footer_ c
  ∧ Class.type_ c' = Class.type_ c
  ∧ same_indent_shape (Class.indent_ c) (Class.indent_ c').

(** The text one access specifier contributes to the render of a class:
    nothing for an empty bucket, otherwise the label line and the renders of
    the snippets of the bucket. *)
Definition access_section (c : Class.t) (a : AccessSpecifier) (label : string) : string :=
  match Class.bucket c a with
  | [] => ""
  | bucket =>
      Indent.Indenting (Class.indent_ c) +:+ label
      +:+ concat_strings (Snippet.Out <$> bucket)
  end.

(** ** Further notions *)

(** [static_cast<std::size_t>(-k)]: what has to be added to [k] to come back
    to zero in [std::size_t]. *)
Definition size_neg (k : N) : N :=
  ((size_modulus - k mod size_modulus) mod size_modulus)%N.

(** A value a [std::size_t] can hold. *)
Definition in_range (n : N) : Prop := (n < size_modulus)%N.

(** The last character of [s] is a line feed. *)
Fixpoint ends_with_newline (s : string) : bool :=
  match s with
  | "" => false
  | String c s' =>
      match s' with
      | "" => bool_decide (c = newline)
      | String _ _ => ends_with_newline s'
      end
  end.

(** A text made of complete lines: empty, or closed by a line feed. *)
Definition newline_terminated (s : string) : bool :=
  match s with
  | "" => true
  | String _ _ => ends_with_newline s
  end.

(** The text with its last line completed when it is not. *)
Definition terminate_text (s : string) : string :=
  if newline_terminated s then s else s +:+ nl.

(** [k] further units of indentation of an [Indent]. *)
Definition indent_pad (i : Indent.t) (k : N) : string :=
  append_times (N.to_nat k) (Indent.indent_string_ i) "".

(** A snippet as made by [Snippet(line_t, ...)]: no header, no footer. *)
Definition plain_line (sn : Snippet.t) : Prop :=
  Snippet.header_ sn = "" ∧ Snippet.footer_ sn = "" ∧ Snippet.type_ sn = kLine.

(** * Properties *)

(** ** Strings and the counting loop *)

Section string_facts.
Implicit Types s t u : string.

Lemma string_app_nil_l t : "" +:+ t = t.
Proof. reflexivity. Qed.

Lemma string_app_cons c s t : String c s +:+ t = String c (s +:+ t).
Proof. reflexivity. Qed.

Lemma string_app_nil_r s : s +:+ "" = s.
Proof.
  induction s as [|c s IH]; [done|]. by rewrite string_app_cons, IH.
Qed.

Lemma string_app_assoc s t u : (s +:+ t) +:+ u = s +:+ t +:+ u.
Proof.
  induction s as [|c s IH]; [done|]. by rewrite !string_app_cons, IH.
Qed.

Lemma string_app_length s t :
  String.length (s +:+ t) = (String.length s + String.length t)%nat.
Proof.
  induction s as [|c s IH]; [done|]. rewrite string_app_cons. simpl. by rewrite IH.
Qed.

Lemma all_chars_app c s t :
  all_chars c (s +:+ t) = all_chars c s && all_chars c t.
Proof.
  induction s as [|c' s IH]; [done|].
  rewrite string_app_cons. simpl. by rewrite IH, andb_assoc.
Qed.

Lemma no_newline_app s t :
  no_newline (s +:+ t) = no_newline s && no_newline t.
Proof.
  induction s as [|c' s IH]; [done|].
  rewrite string_app_cons. simpl. by rewrite IH, andb_assoc.
Qed.

(** A loop [for (x : l) acc += f(x);] appends the pieces after what was
    accumulated before it. *)
Lemma fold_left_append {A} (f : A → string) (l : list A) acc :
  fold_left (λ acc x, acc +:+ f x) l acc = acc +:+ concat_strings (f <$> l).
Proof.
  revert acc. induction l as [|x l IH]; intros acc; simpl.
  - by rewrite string_app_nil_r.
  - by rewrite IH, string_app_assoc.
Qed.
End string_facts.

Section append_times_facts.
Implicit Types piece acc : string.

Lemma append_times_length n piece acc :
  String.length (append_times n piece acc)
  = (String.length acc + n * String.length piece)%nat.
Proof.
  revert acc. induction n as [|n IH]; intros acc; simpl; [lia|].
  rewrite IH, string_app_length. lia.
Qed.

Lemma append_times_all_chars c n piece acc :
  all_chars c piece = true → all_chars c acc = true →
  all_chars c (append_times n piece acc) = true.
Proof.
  intros Hp. revert acc. induction n as [|n IH]; intros acc Hacc; simpl; [done|].
  apply IH. by rewrite all_chars_app, Hacc, Hp.
Qed.
End append_times_facts.

(** ** Indent *)

Section indent_facts.

Lemma indent_cached_new level size c : indent_cached (Indent.new level size c).
Proof. reflexivity. Qed.

Lemma indent_string_length i :
  indent_cached i →
  String.length (Indent.indent_string_ i) = N.to_nat (Indent.size_ i).
Proof. intros ->. rewrite append_times_length. simpl. lia. Qed.

Lemma indent_string_all_chars i :
  indent_cached i →
  all_chars (Indent.character_ i) (Indent.indent_string_ i) = true.
Proof.
  intros ->. apply append_times_all_chars; simpl; [|done].
  by rewrite bool_decide_eq_true_2.
Qed.

Lemma Indenting_length i :
  indent_cached i →
  String.length (Indent.Indenting i)
  = N.to_nat (Indent.level_ i * Indent.size_ i).
Proof.
  intros Hi. unfold Indent.Indenting.
  rewrite append_times_length, indent_string_length by done. simpl. lia.
Qed.

Lemma Indenting_all_chars i :
  indent_cached i →
  all_chars (Indent.character_ i) (Indent.Indenting i) = true.
Proof.
  intros Hi. apply append_times_all_chars; [|done].
  by apply indent_string_all_chars.
Qed.

Lemma add_levels_frame i (ks : list N) :
  Indent.size_ (fold_left Indent.add_level ks i) = Indent.size_ i
  ∧ Indent.character_ (fold_left Indent.add_level ks i) = Indent.character_ i
  ∧ (indent_cached i → indent_cached (fold_left Indent.add_level ks i)).
Proof.
  revert i. induction ks as [|k ks IH]; intros i; simpl; [done|].
  destruct (IH (Indent.add_level i k)) as (-> & -> & Hc). auto.
Qed.

End indent_facts.

(** C8. For every [Indent] built by the constructor from a level, a unit
    width and a fill character, and whatever level increments it received
    afterwards, [Indenting()] is a string of exactly
    [level_ × size_] characters, every one of them the fill character; the
    unit width and the fill character are those given to the constructor.
    [Indenting] is a function from the value of the [Indent] to a string:
    it reads nothing else, changes nothing and has a result on every input. *)
Theorem Indenting_length_and_fill (level size : N) (c : ascii) (increments : list N) :
  String.length (Indent.Indenting (reindented (Indent.new level size c) increments))
  = N.to_nat (Indent.level_ (reindented (Indent.new level size c) increments) * size)
  ∧ all_chars c (Indent.Indenting (reindented (Indent.new level size c) increments)) = true
  ∧ Indent.size_ (reindented (Indent.new level size c) increments) = size
  ∧ Indent.character_ (reindented (Indent.new level size c) increments) = c
  ∧ String.length (Indent.Indenting (Indent.new level size c)) = N.to_nat (level * size).
Proof.
  destruct (add_levels_frame (Indent.new level size c) increments)
    as (Hsize & Hchar & Hcached).
  specialize (Hcached (indent_cached_new level size c)).
  simpl in Hsize, Hchar. fold (reindented (Indent.new level size c) increments) in *.
  split_and!.
  - pose proof (Indenting_length _ Hcached) as Hlen. by rewrite Hsize in Hlen.
  - pose proof (Indenting_all_chars _ Hcached) as Hall. by rewrite Hchar in Hall.
  - exact Hsize.
  - exact Hchar.
  - apply (Indenting_length (Indent.new level size c)), indent_cached_new.
Qed.

(** ** Reading lines back *)

Section getline_facts.
Implicit Types s line rest acc : string.

Lemma read_until_newline_rest c s :
  (String.length (read_until_newline (String c s)).2 ≤ String.length s)%nat.
Proof.
  revert c. induction s as [|c' s IH]; intros c; simpl.
  - by case_bool_decide.
  - case_bool_decide; simpl; [lia|].
    specialize (IH c'). simpl in IH.
    destruct (bool_decide (c' = newline)); simpl in *; [lia|].
    destruct (read_until_newline s); simpl in *. lia.
Qed.

Lemma split_lines_from_cons acc c s :
  split_lines_from acc (String c s)
  = if bool_decide (c = newline) then acc :: split_lines_from "" s
    else split_lines_from (acc +:+ String c "") s.
Proof. reflexivity. Qed.

Lemma read_until_newline_cons c s :
  read_until_newline (String c s)
  = if bool_decide (c = newline) then ("", s)
    else (String c (read_until_newline s).1, (read_until_newline s).2).
Proof. simpl. by destruct (read_until_newline s). Qed.

Lemma split_lines_from_nonempty acc c s :
  split_lines_from acc (String c s)
  = (acc +:+ (read_until_newline (String c s)).1)
      :: split_lines (read_until_newline (String c s)).2.
Proof.
  revert acc c. induction s as [|c' s IH]; intros acc c;
    rewrite split_lines_from_cons, read_until_newline_cons;
    case_bool_decide as Hc; cbn [fst snd].
  - by rewrite string_app_nil_r.
  - simpl. by destruct acc.
  - by rewrite string_app_nil_r.
  - by rewrite IH, string_app_assoc.
Qed.

(** The loop over [std::getline] stops by itself within the iterations
    [absorb_lines] allows, and appends the lines of the text. *)
Lemma getline_loop_split_lines fuel s (lines : list string) :
  (String.length s ≤ fuel)%nat →
  getline_loop fuel s lines = (lines ++ split_lines s).
Proof.
  revert s lines. induction fuel as [|fuel IH]; intros s lines Hlen.
  - destruct s; simpl in *; [|lia]. by rewrite app_nil_r.
  - destruct s as [|c s]; [simpl; by rewrite app_nil_r|].
    unfold getline_loop; fold getline_loop. unfold getline.
    pose proof (read_until_newline_rest c s) as Hrest.
    unfold split_lines at 1. rewrite split_lines_from_nonempty, string_app_nil_l.
    destruct (read_until_newline (String c s)) as [line rest]; cbn [fst snd] in *.
    rewrite IH by (simpl in Hlen; lia). by rewrite <- app_assoc.
Qed.

Lemma absorb_lines_split_lines s (lines : list string) :
  absorb_lines s lines = (lines ++ split_lines s).
Proof. by apply getline_loop_split_lines. Qed.

Lemma split_lines_from_line acc line rest :
  no_newline line = true →
  split_lines_from acc (line +:+ nl +:+ rest) = (acc +:+ line) :: split_lines rest.
Proof.
  revert acc. induction line as [|c line IH]; intros acc Hline.
  - simpl. by rewrite string_app_nil_r.
  - simpl in Hline. apply andb_true_iff in Hline as [Hc Hline].
    rewrite string_app_cons. cbn [split_lines_from].
    apply negb_true_iff in Hc. rewrite Hc.
    rewrite IH by done. by rewrite string_app_assoc.
Qed.

Lemma split_lines_line line rest :
  no_newline line = true →
  split_lines (line +:+ nl +:+ rest) = line :: split_lines rest.
Proof. intros Hline. unfold split_lines at 1. by rewrite split_lines_from_line. Qed.

(** Text made of lines, each closed by a line feed, reads back as these
    lines. *)
Lemma split_lines_terminated (ls : list string) :
  Forall (λ line, no_newline line = true) ls →
  split_lines (concat_strings ((λ line, line +:+ nl) <$> ls)) = ls.
Proof.
  induction 1 as [|line ls Hline _ IH]; [done|].
  rewrite fmap_cons. cbn [concat_strings].
  by rewrite string_app_assoc, split_lines_line, IH.
Qed.

Lemma split_lines_from_no_newline acc s :
  no_newline acc = true →
  Forall (λ line, no_newline line = true) (split_lines_from acc s).
Proof.
  revert acc. induction s as [|c s IH]; intros acc Hacc; simpl.
  - destruct acc; by repeat constructor.
  - case_bool_decide as Hc.
    + constructor; [done|]. by apply IH.
    + apply IH. rewrite no_newline_app, Hacc. simpl.
      by rewrite bool_decide_eq_false_2.
Qed.

Lemma split_lines_no_newline s :
  Forall (λ line, no_newline line = true) (split_lines s).
Proof. by apply split_lines_from_no_newline. Qed.
End getline_facts.

(** ** Snippet *)

Section snippet_facts.
Implicit Types s : Snippet.t.

Lemma Snippet_Out_concat s :
  Snippet.Out s
  = concat_strings
      ((λ line, Indent.Indenting (Snippet.indent_ s) +:+ line +:+ nl)
         <$> Snippet.lines_ s).
Proof.
  unfold Snippet.Out.
  rewrite (fold_left_append
             (λ line, (Indent.Indenting (Snippet.indent_ s) +:+ line) +:+ nl)).
  rewrite string_app_nil_l. f_equal. apply list_fmap_ext.
  intros _ line _. by rewrite string_app_assoc.
Qed.

Lemma Snippet_Add_any_lines {T} `{HasOut T} s (any : T) text :
  out any = Some text →
  Snippet.Add_any s any
  = Some (Snippet.with_lines s (Snippet.lines_ s ++ split_lines text)).
Proof.
  intros Hout. unfold Snippet.Add_any. rewrite Hout. simpl.
  by rewrite absorb_lines_split_lines.
Qed.
End snippet_facts.

(** C4. [Render()] of a snippet is the concatenation, in the order the
    lines were appended, of [Indenting() + line + "\n"] for each stored
    line. A snippet without lines renders as the empty string, and a
    snippet with header [H] and footer [F] that received the single call
    [Add(x)] renders as [Indenting() + H + x + F + "\n"]. *)
Theorem Snippet_Out_lines :
  (∀ s : Snippet.t,
     Snippet.Out s
     = concat_strings
         ((λ line, Indent.Indenting (Snippet.indent_ s) +:+ line +:+ nl)
            <$> Snippet.lines_ s))
  ∧ (∀ indent H F ty, Snippet.Out (Snippet.mk indent H F ty []) = "")
  ∧ (∀ indent H F ty x,
       Snippet.Out (Snippet.Add (Snippet.mk indent H F ty []) x)
       = Indent.Indenting indent +:+ H +:+ x +:+ F +:+ nl).
Proof.
  split_and!.
  - apply Snippet_Out_concat.
  - done.
  - intros indent H F ty x. rewrite Snippet_Out_concat. simpl.
    by rewrite string_app_nil_r, !string_app_assoc.
Qed.

(** C6. [Add(otherNode)] appends to the snippet the lines of the other
    node's rendered text as they are: the new lines are those of the text,
    whatever the header and the footer of the snippet, and a text made of
    lines each closed by a line feed gives back exactly these lines. Only
    [Add(text)] stores [header + text + footer]. *)
Theorem Snippet_Add_any_verbatim {T} `{HasOut T}
    (s : Snippet.t) (any : T) (text : string) :
  out any = Some text →
  Snippet.Add_any s any
  = Some (Snippet.mk (Snippet.indent_ s) (Snippet.header_ s) (Snippet.footer_ s)
            (Snippet.type_ s) (Snippet.lines_ s ++ split_lines text))
  ∧ Forall (λ line, no_newline line = true) (split_lines text)
  ∧ (∀ ls, Forall (λ line, no_newline line = true) ls →
           text = concat_strings ((λ line, line +:+ nl) <$> ls) →
           split_lines text = ls)
  ∧ (∀ line,
       Snippet.Add s line
       = Snippet.mk (Snippet.indent_ s) (Snippet.header_ s) (Snippet.footer_ s)
           (Snippet.type_ s)
           (Snippet.lines_ s ++ [Snippet.header_ s +:+ line +:+ Snippet.footer_ s])).
Proof.
  intros Hout. split_and!.
  - by rewrite (Snippet_Add_any_lines s any text).
  - apply split_lines_no_newline.
  - intros ls Hls ->. by apply split_lines_terminated.
  - intros line. unfold Snippet.Add, Snippet.with_lines.
    by rewrite string_app_assoc.
Qed.

Lemma Snippet_Add_any_verbatim_witness :
  out (Snippet.Add (Snippet.line (Indent.new_default 1 2)) "x") = Some ("  x" +:+ nl)
  ∧ Snippet.Add_any (Snippet.system_include (Indent.new_default 0 2))
      (Snippet.Add (Snippet.line (Indent.new_default 1 2)) "x")
    = Some (Snippet.mk (Indent.new_default 0 2) "#include <" ">" kSystemInclude ["  x"])
  ∧ split_lines ("  x" +:+ nl) = ["  x"].
Proof.
  split; [reflexivity|]. split.
  - exact (proj1 (Snippet_Add_any_verbatim
                    (Snippet.system_include (Indent.new_default 0 2))
                    (Snippet.Add (Snippet.line (Indent.new_default 1 2)) "x")
                    ("  x" +:+ nl) eq_refl)).
  - apply (proj1 (proj2 (proj2 (Snippet_Add_any_verbatim
                    (Snippet.system_include (Indent.new_default 0 2))
                    (Snippet.Add (Snippet.line (Indent.new_default 1 2)) "x")
                    ("  x" +:+ nl) eq_refl))) ["  x"]); [|reflexivity].
    by repeat constructor.
Defined.

(** ** Block *)

Section block_facts.
Implicit Types b : Block.t.

Lemma Block_Out_concat b :
  Block.Out b
  = Indent.Indenting (Block.indent_ b) +:+ Block.header_ b
    +:+ concat_strings (Snippet.Out <$> Block.snippets_ b)
    +:+ Indent.Indenting (Block.indent_ b) +:+ Block.footer_ b.
Proof.
  unfold Block.Out. rewrite (fold_left_append Snippet.Out).
  by rewrite !string_app_assoc.
Qed.
End block_facts.

(** C5. [Render()] of a block is [Indenting() + header], then the render
    of each child snippet in the order of the appends, then
    [Indenting() + footer]; without children it is
    [Indenting() + header + Indenting() + footer]. *)
Theorem Block_Out_layout :
  (∀ b : Block.t,
     Block.Out b
     = Indent.Indenting (Block.indent_ b) +:+ Block.header_ b
       +:+ concat_strings (Snippet.Out <$> Block.snippets_ b)
       +:+ Indent.Indenting (Block.indent_ b) +:+ Block.footer_ b)
  ∧ (∀ indent H F ty,
       Block.Out (Block.mk indent H F ty [])
       = Indent.Indenting indent +:+ H +:+ Indent.Indenting indent +:+ F).
Proof.
  split.
  - apply Block_Out_concat.
  - intros indent H F ty. by rewrite Block_Out_concat.
Qed.

(** ** Levels of parents and children *)

Section size_facts.

Lemma size_add_exact a b : (a + b < size_modulus)%N → size_add a b = (a + b)%N.
Proof. intros Hlt. unfold size_add. by apply N.mod_small. Qed.

Lemma size_add_swap a k :
  size_add (size_add a 1) k = size_add (size_add a k) 1.
Proof.
  unfold size_add. rewrite !N.Div0.add_mod_idemp_l. f_equal. lia.
Qed.

End size_facts.

Section child_facts.
Implicit Types (parent : Indent.t) (sn : Snippet.t).

Lemma child_of_indent parent sn :
  Snippet.indent_ sn
  = Indent.new_default (size_add (Indent.level_ parent) 1) (Indent.size_ parent) →
  child_of parent sn.
Proof. done. Qed.

Lemma child_of_level parent sn :
  child_of parent sn → snippet_level sn = size_add (Indent.level_ parent) 1.
Proof. unfold child_of, snippet_level. by intros ->. Qed.

Lemma child_of_increment parent sn k :
  child_of parent sn →
  child_of (Indent.add_level parent k) (Snippet.IncrementIndent sn k).
Proof.
  unfold child_of. simpl. intros ->.
  unfold Indent.add_level, Indent.new_default, Indent.new. simpl.
  by rewrite size_add_swap.
Qed.

Lemma Snippet_Add_lines_indent sn lines :
  Snippet.indent_ (Snippet.Add_lines sn lines) = Snippet.indent_ sn.
Proof.
  unfold Snippet.Add_lines. revert sn.
  induction lines as [|l lines IH]; intros sn; simpl; [done|]. by rewrite IH.
Qed.

Lemma Snippet_Add_any_indent {T} `{HasOut T} sn (any : T) sn' :
  Snippet.Add_any sn any = Some sn' → Snippet.indent_ sn' = Snippet.indent_ sn.
Proof.
  unfold Snippet.Add_any. destruct (out any); simpl; [|done]. by intros [= <-].
Qed.
End child_facts.

Section block_children.
Implicit Types b : Block.t.

Lemma Block_Add_children b line :
  block_children_ok b → block_children_ok (Block.Add b line).
Proof.
  intros Hb. unfold block_children_ok, Block.Add. simpl.
  apply Forall_app. split; [done|]. constructor; [|done].
  by apply child_of_indent.
Qed.

Lemma Block_Add_any_children {T} `{HasOut T} b (any : T) b' :
  Block.Add_any b any = Some b' →
  block_children_ok b → block_children_ok b'.
Proof.
  unfold Block.Add_any. intros Hadd Hb.
  destruct (Snippet.Add_any (Block.snippet_copy b) any) as [sn|] eqn:Hsn;
    simpl in Hadd; [|done].
  injection Hadd as <-. unfold block_children_ok. simpl.
  apply Forall_app. split; [done|]. constructor; [|done].
  apply child_of_indent. by rewrite (Snippet_Add_any_indent _ _ _ Hsn).
Qed.

Lemma Block_Add_lines_children b lines :
  block_children_ok b → block_children_ok (Block.Add_lines b lines).
Proof.
  unfold Block.Add_lines. revert b.
  induction lines as [|l lines IH]; intros b Hb; simpl; [done|].
  by apply IH, Block_Add_children.
Qed.

Lemma Block_IncrementIndent_children b k :
  block_children_ok b → block_children_ok (Block.IncrementIndent b k).
Proof.
  unfold block_children_ok. simpl. intros Hb.
  apply Forall_fmap. eapply Forall_impl; [|exact Hb].
  intros sn Hsn. by apply child_of_increment.
Qed.

Lemma block_step_children b call b' :
  Calls.block_step b call = Some b' →
  block_children_ok b → block_children_ok b'.
Proof.
  destruct call as [line|lines|n|k]; simpl.
  - intros [= <-]. apply Block_Add_children.
  - intros [= <-]. apply Block_Add_lines_children.
  - apply Block_Add_any_children.
  - intros [= <-]. apply Block_IncrementIndent_children.
Qed.

Lemma block_run_children calls b b' :
  Calls.block_run calls b = Some b' →
  block_children_ok b → block_children_ok b'.
Proof.
  revert b. induction calls as [|call calls IH]; intros b; simpl.
  - by intros [= <-].
  - destruct (Calls.block_step b call) as [b1|] eqn:Hstep; simpl; [|done].
    intros Hrun Hb. eapply IH; [exact Hrun|]. by eapply block_step_children.
Qed.

Lemma block_children_fresh b : Block.snippets_ b = [] → block_children_ok b.
Proof. unfold block_children_ok. by intros ->. Qed.
End block_children.

Section class_children.
Implicit Types c : Class.t.

Lemma bucket_new name indent a : Class.bucket (Class.new name indent) a = [].
Proof. by destruct a. Qed.

Lemma bucket_emplace_back c a sn a' :
  Class.bucket (Class.emplace_back c a sn) a'
  = if decide (a = a') then (Class.bucket c a ++ [sn]) else Class.bucket c a'.
Proof.
  unfold Class.bucket. simpl. rewrite lookup_insert.
  by case_decide.
Qed.

Lemma bucket_IncrementIndent c k a :
  Class.bucket (Class.IncrementIndent c k) a
  = (λ sn, Snippet.IncrementIndent sn k) <$> Class.bucket c a.
Proof.
  unfold Class.bucket. simpl. rewrite lookup_fmap.
  by destruct (Class.snippets_ c !! a).
Qed.

Lemma class_emplace_back_children c a sn :
  child_of (Class.indent_ c) sn →
  class_children_ok c → class_children_ok (Class.emplace_back c a sn).
Proof.
  intros Hsn Hc a'. rewrite bucket_emplace_back. simpl.
  case_decide; [|apply Hc]. apply Forall_app. split; [apply Hc|].
  by constructor.
Qed.

Lemma Class_Add_children c line a :
  class_children_ok c → class_children_ok (Class.Add c line a).
Proof. apply class_emplace_back_children. by apply child_of_indent. Qed.

Lemma Class_Add_any_children {T} `{HasOut T} c (any : T) a c' :
  Class.Add_any c any a = Some c' →
  class_children_ok c → class_children_ok c'.
Proof.
  unfold Class.Add_any. intros Hadd Hc.
  destruct (Snippet.Add_any (Class.snippet_copy c) any) as [sn|] eqn:Hsn;
    simpl in Hadd; [|done].
  injection Hadd as <-. apply class_emplace_back_children; [|done].
  apply child_of_indent. by rewrite (Snippet_Add_any_indent _ _ _ Hsn).
Qed.

Lemma Class_Add_lines_children c lines a :
  class_children_ok c → class_children_ok (Class.Add_lines c lines a).
Proof.
  unfold Class.Add_lines. revert c.
  induction lines as [|l lines IH]; intros c Hc; simpl; [done|].
  by apply IH, Class_Add_children.
Qed.

Lemma Class_IncrementIndent_children c k :
  class_children_ok c → class_children_ok (Class.IncrementIndent c k).
Proof.
  intros Hc a. rewrite bucket_IncrementIndent. simpl.
  apply Forall_fmap. eapply Forall_impl; [|apply Hc].
  intros sn Hsn. by apply child_of_increment.
Qed.

Lemma class_step_children c call c' :
  Calls.class_step c call = Some c' →
  class_children_ok c → class_children_ok c'.
Proof.
  destruct call as [line a|lines a|n a|k]; simpl.
  - intros [= <-]. apply Class_Add_children.
  - intros [= <-]. apply Class_Add_lines_children.
  - apply Class_Add_any_children.
  - intros [= <-]. apply Class_IncrementIndent_children.
Qed.

Lemma class_run_children calls c c' :
  Calls.class_run calls c = Some c' →
  class_children_ok c → class_children_ok c'.
Proof.
  revert c. induction calls as [|call calls IH]; intros c; simpl.
  - by intros [= <-].
  - destruct (Calls.class_step c call) as [c1|] eqn:Hstep; simpl; [|done].
    intros Hrun Hc. eapply IH; [exact Hrun|]. by eapply class_step_children.
Qed.

Lemma class_children_new name indent : class_children_ok (Class.new name indent).
Proof. intros a. by rewrite bucket_new. Qed.
End class_children.

(** ** What the calls leave alone *)

Section frames.

Lemma block_frame_refl b : block_frame b b.
Proof. by repeat split. Qed.

Lemma block_frame_trans b1 b2 b3 :
  block_frame b1 b2 → block_frame b2 b3 → block_frame b1 b3.
Proof.
  intros (?&?&?&?&?&?) (?&?&?&?&?&?). repeat split; congruence.
Qed.

Lemma Block_Add_lines_frame b lines : block_frame b (Block.Add_lines b lines).
Proof.
  unfold Block.Add_lines. revert b.
  induction lines as [|l lines IH]; intros b; simpl; [apply block_frame_refl|].
  eapply block_frame_trans; [|apply IH]. by repeat split.
Qed.

Lemma block_step_frame b call b' :
  Calls.block_step b call = Some b' → block_frame b b'.
Proof.
  destruct call as [line|lines|n|k]; simpl.
  - intros [= <-]. by repeat split.
  - intros [= <-]. apply Block_Add_lines_frame.
  - unfold Block.Add_any.
    destruct (Snippet.Add_any (Block.snippet_copy b) n); simpl; [|done].
    intros [= <-]. by repeat split.
  - intros [= <-]. by repeat split.
Qed.

Lemma block_run_frame calls b b' :
  Calls.block_run calls b = Some b' → block_frame b b'.
Proof.
  revert b. induction calls as [|call calls IH]; intros b; simpl.
  - intros [= <-]. apply block_frame_refl.
  - destruct (Calls.block_step b call) as [b1|] eqn:Hstep; simpl; [|done].
    intros Hrun. eapply block_frame_trans; [|by apply IH].
    by eapply block_step_frame.
Qed.

Lemma class_frame_refl c : class_frame c c.
Proof. by repeat split. Qed.

Lemma class_frame_trans c1 c2 c3 :
  class_frame c1 c2 → class_frame c2 c3 → class_frame c1 c3.
Proof.
  intros (?&?&?&?&?&?&?) (?&?&?&?&?&?&?). repeat split; congruence.
Qed.

Lemma Class_Add_lines_frame c lines a : class_frame c (Class.Add_lines c lines a).
Proof.
  unfold Class.Add_lines. revert c.
  induction lines as [|l lines IH]; intros c; simpl; [apply class_frame_refl|].
  eapply class_frame_trans; [|apply IH]. by repeat split.
Qed.

Lemma class_step_frame c call c' :
  Calls.class_step c call = Some c' → class_frame c c'.
Proof.
  destruct call as [line a|lines a|n a|k]; simpl.
  - intros [= <-]. by repeat split.
  - intros [= <-]. apply Class_Add_lines_frame.
  - unfold Class.Add_any.
    destruct (Snippet.Add_any (Class.snippet_copy c) n); simpl; [|done].
    intros [= <-]. by repeat split.
  - intros [= <-]. by repeat split.
Qed.

Lemma class_run_frame calls c c' :
  Calls.class_run calls c = Some c' → class_frame c c'.
Proof.
  revert c. induction calls as [|call calls IH]; intros c; simpl.
  - intros [= <-]. apply class_frame_refl.
  - destruct (Calls.class_step c call) as [c1|] eqn:Hstep; simpl; [|done].
    intros Hrun. eapply class_frame_trans; [|by apply IH].
    by eapply class_step_frame.
Qed.

Lemma same_indent_shape_cached i i' :
  same_indent_shape i i' → indent_cached i → indent_cached i'.
Proof. unfold indent_cached. intros (-> & -> & ->). done. Qed.

End frames.

(** C1. In a [Block] and in a [Class], the wrapping snippet of every [Add]
    is made one level deeper than the parent is at that moment, and
    [IncrementIndent(k)] adds [k] to the level of the parent and to the level
    of every child; so after any sequence of [Add] and [IncrementIndent]
    calls on a parent that started without children, every child is one
    level deeper than the parent is now. Levels are [std::size_t] and the
    sums are the ones the header computes ([size_add]); such a sum is the
    integer sum whenever that is below [2^64]. *)
Theorem children_one_level_deeper :
  (∀ (b : Block.t) line, ∃ sn,
     Block.snippets_ (Block.Add b line) = Block.snippets_ b ++ [sn]
     ∧ snippet_level sn = size_add (block_level b) 1)
  ∧ (∀ (b : Block.t) (n : Node) b', Block.Add_any b n = Some b' → ∃ sn,
       Block.snippets_ b' = Block.snippets_ b ++ [sn]
       ∧ snippet_level sn = size_add (block_level b) 1)
  ∧ (∀ (b : Block.t) k,
       block_level (Block.IncrementIndent b k) = size_add (block_level b) k
       ∧ snippet_level <$> Block.snippets_ (Block.IncrementIndent b k)
         = (λ sn, size_add (snippet_level sn) k) <$> Block.snippets_ b)
  ∧ (∀ (b0 : Block.t) calls b,
       Block.snippets_ b0 = [] → Calls.block_run calls b0 = Some b →
       Forall (λ sn, snippet_level sn = size_add (block_level b) 1)
              (Block.snippets_ b))
  ∧ (∀ (c : Class.t) line a, ∃ sn,
       Class.bucket (Class.Add c line a) a = Class.bucket c a ++ [sn]
       ∧ snippet_level sn = size_add (class_level c) 1)
  ∧ (∀ (c : Class.t) (n : Node) a c', Class.Add_any c n a = Some c' → ∃ sn,
       Class.bucket c' a = Class.bucket c a ++ [sn]
       ∧ snippet_level sn = size_add (class_level c) 1)
  ∧ (∀ (c : Class.t) k,
       class_level (Class.IncrementIndent c k) = size_add (class_level c) k
       ∧ ∀ a, snippet_level <$> Class.bucket (Class.IncrementIndent c k) a
              = (λ sn, size_add (snippet_level sn) k) <$> Class.bucket c a)
  ∧ (∀ name indent calls (c : Class.t),
       Calls.class_run calls (Class.new name indent) = Some c →
       ∀ a, Forall (λ sn, snippet_level sn = size_add (class_level c) 1)
                   (Class.bucket c a))
  ∧ (∀ level : N, (level + 1 < size_modulus)%N → size_add level 1 = (level + 1)%N).
Proof.
  split_and!.
  - intros b line. eexists. split; [reflexivity|done].
  - intros b n b'. unfold Block.Add_any.
    destruct (Snippet.Add_any (Block.snippet_copy b) n) as [sn|] eqn:Hsn;
      simpl; [|done].
    intros [= <-]. exists sn. split; [done|].
    unfold snippet_level. by rewrite (Snippet_Add_any_indent _ _ _ Hsn).
  - intros b k. split; [done|]. simpl. rewrite <- list_fmap_compose.
    by apply list_fmap_ext.
  - intros b0 calls b Hb0 Hrun.
    pose proof (block_run_children _ _ _ Hrun (block_children_fresh _ Hb0)) as Hb.
    eapply Forall_impl; [|exact Hb]. intros sn. apply child_of_level.
  - intros c line a. eexists. split.
    + unfold Class.Add. rewrite bucket_emplace_back, decide_True by done.
      reflexivity.
    + done.
  - intros c n a c'. unfold Class.Add_any.
    destruct (Snippet.Add_any (Class.snippet_copy c) n) as [sn|] eqn:Hsn;
      simpl; [|done].
    intros [= <-]. exists sn. rewrite bucket_emplace_back, decide_True by done.
    split; [done|].
    unfold snippet_level. by rewrite (Snippet_Add_any_indent _ _ _ Hsn).
  - intros c k. split; [done|]. intros a.
    rewrite bucket_IncrementIndent, <- list_fmap_compose.
    by apply list_fmap_ext.
  - intros name indent calls c Hrun a.
    pose proof (class_run_children _ _ _ Hrun (class_children_new name indent) a) as Hc.
    eapply Forall_impl; [|exact Hc]. intros sn. apply child_of_level.
  - intros level. apply size_add_exact.
Qed.

Lemma children_one_level_deeper_witness :
  (∃ b, Calls.block_run
          [Calls.BAdd "a"; Calls.BIncrementIndent 3;
           Calls.BAddNode (NSnippet (Snippet.Add (Snippet.line (Indent.new_default 0 2)) "n"))]
          (Block.code_block (Indent.new_default 0 2)) = Some b
        ∧ Forall (λ sn, snippet_level sn = size_add (block_level b) 1)
                 (Block.snippets_ b))
  ∧ (∃ c, Calls.class_run
            [Calls.CAdd "x" kPublic; Calls.CIncrementIndent 2; Calls.CAdd "y" kPrivate]
            (Class.new "Foo" (Indent.new_default 0 2)) = Some c
          ∧ Forall (λ sn, snippet_level sn = size_add (class_level c) 1)
                   (Class.bucket c kPublic))
  ∧ (∃ b' sn,
       Block.Add_any (Block.code_block (Indent.new_default 4 2))
         (NBlock (Block.code_block (Indent.new_default 0 2))) = Some b'
       ∧ Block.snippets_ b' = [sn] ∧ snippet_level sn = 5%N)
  ∧ (∃ c' sn,
       Class.Add_any (Class.new "Foo" (Indent.new_default 4 2))
         (NBlock (Block.code_block (Indent.new_default 0 2))) kProtected = Some c'
       ∧ Class.bucket c' kProtected = [sn] ∧ snippet_level sn = 5%N)
  ∧ size_add 0 1 = 1%N.
Proof.
  split_and!.
  - eexists. split; [reflexivity|].
    apply (proj1 (proj2 (proj2 (proj2 children_one_level_deeper)))
             (Block.code_block (Indent.new_default 0 2))
             [Calls.BAdd "a"; Calls.BIncrementIndent 3;
              Calls.BAddNode (NSnippet (Snippet.Add (Snippet.line (Indent.new_default 0 2)) "n"))]);
      reflexivity.
  - eexists. split; [reflexivity|].
    apply (proj1 (proj2 (proj2 (proj2 (proj2 (proj2 (proj2 (proj2
             children_one_level_deeper)))))))
             "Foo" (Indent.new_default 0 2)
             [Calls.CAdd "x" kPublic; Calls.CIncrementIndent 2; Calls.CAdd "y" kPrivate]);
      reflexivity.
  - eexists. 
    destruct (proj1 (proj2 children_one_level_deeper)
                (Block.code_block (Indent.new_default 4 2))
                (NBlock (Block.code_block (Indent.new_default 0 2))) _ eq_refl)
      as (sn & Hsn & Hlevel).
    exists sn. split; [reflexivity|]. split; [exact Hsn | exact Hlevel].
  - eexists.
    destruct (proj1 (proj2 (proj2 (proj2 (proj2 (proj2 children_one_level_deeper)))))
                (Class.new "Foo" (Indent.new_default 4 2))
                (NBlock (Block.code_block (Indent.new_default 0 2))) kProtected _ eq_refl)
      as (sn & Hsn & Hlevel).
    exists sn. split; [reflexivity|]. split; [exact Hsn | exact Hlevel].
  - apply children_one_level_deeper. reflexivity.
Defined.

(** A block at level 1 whose fill character is a dash: its braces are
    indented with dashes, its line with spaces. *)
Example dash_filled_block_has_space_indented_line :
  Block.Out (Block.Add (Block.code_block (Indent.new 1 2 "-")) "x;")
  = "--{" +:+ nl +:+ "    x;" +:+ nl +:+ "--}" +:+ nl.
Proof. reflexivity. Qed.

(** ** Class *)

Section class_facts.
Implicit Types c : Class.t.

Lemma has_all_keys_new name indent : Class.has_all_keys (Class.new name indent).
Proof. repeat split; by eexists. Qed.

Lemma has_all_keys_emplace_back c a sn :
  Class.has_all_keys c → Class.has_all_keys (Class.emplace_back c a sn).
Proof.
  intros (Hpub & Hprot & Hpriv). unfold Class.has_all_keys. simpl.
  rewrite !lookup_insert_is_Some'. auto.
Qed.

Lemma has_all_keys_IncrementIndent c k :
  Class.has_all_keys c → Class.has_all_keys (Class.IncrementIndent c k).
Proof.
  intros (Hpub & Hprot & Hpriv). unfold Class.has_all_keys. simpl.
  rewrite !lookup_fmap, !fmap_is_Some. done.
Qed.

Lemma has_all_keys_Add_lines c lines a :
  Class.has_all_keys c → Class.has_all_keys (Class.Add_lines c lines a).
Proof.
  unfold Class.Add_lines. revert c.
  induction lines as [|l lines IH]; intros c Hc; simpl; [done|].
  by apply IH, has_all_keys_emplace_back.
Qed.

Lemma has_all_keys_Add_any {T} `{HasOut T} c (any : T) a c' :
  Class.Add_any c any a = Some c' →
  Class.has_all_keys c → Class.has_all_keys c'.
Proof.
  unfold Class.Add_any.
  destruct (Snippet.Add_any (Class.snippet_copy c) any); simpl; [|done].
  intros [= <-]. apply has_all_keys_emplace_back.
Qed.

Lemma class_step_has_all_keys c call c' :
  Calls.class_step c call = Some c' →
  Class.has_all_keys c → Class.has_all_keys c'.
Proof.
  destruct call as [line a|lines a|n a|k]; simpl.
  - intros [= <-]. apply has_all_keys_emplace_back.
  - intros [= <-]. apply has_all_keys_Add_lines.
  - apply has_all_keys_Add_any.
  - intros [= <-]. apply has_all_keys_IncrementIndent.
Qed.

Lemma class_run_has_all_keys calls c c' :
  Calls.class_run calls c = Some c' →
  Class.has_all_keys c → Class.has_all_keys c'.
Proof.
  revert c. induction calls as [|call calls IH]; intros c; simpl.
  - by intros [= <-].
  - destruct (Calls.class_step c call) as [c1|] eqn:Hstep; simpl; [|done].
    intros Hrun Hc. eapply IH; [exact Hrun|]. by eapply class_step_has_all_keys.
Qed.

Lemma Out_section_present c a label block :
  is_Some (Class.snippets_ c !! a) →
  Class.Out_section c a label block = Some (block +:+ access_section c a label).
Proof.
  intros [bucket Hb]. unfold Class.Out_section, access_section, Class.bucket.
  rewrite Hb. simpl. destruct bucket as [|sn bucket].
  - by rewrite string_app_nil_r.
  - simpl. rewrite (fold_left_append Snippet.Out).
    by rewrite !string_app_assoc.
Qed.

Lemma Class_Out_present c :
  Class.has_all_keys c →
  Class.Out c
  = Some (Indent.Indenting (Class.indent_ c) +:+ "class " +:+ Class.name_ c
          +:+ Class.header_ c
          +:+ access_section c kPublic (" public:" +:+ nl)
          +:+ access_section c kProtected (" protected:" +:+ nl)
          +:+ access_section c kPrivate (" private:" +:+ nl)
          +:+ Indent.Indenting (Class.indent_ c) +:+ Class.footer_ c).
Proof.
  intros (Hpub & Hprot & Hpriv). unfold Class.Out.
  rewrite (Out_section_present _ _ _ _ Hpub). simpl.
  rewrite (Out_section_present _ _ _ _ Hprot). simpl.
  rewrite (Out_section_present _ _ _ _ Hpriv). simpl.
  by rewrite !string_app_assoc.
Qed.

Lemma emplace_back_commute c a1 a2 sn1 sn2 :
  a1 ≠ a2 →
  Class.emplace_back (Class.emplace_back c a1 sn1) a2 sn2
  = Class.emplace_back (Class.emplace_back c a2 sn2) a1 sn1.
Proof.
  intros Hne. unfold Class.emplace_back. simpl. f_equal.
  rewrite !lookup_insert_ne by done. by apply insert_insert_ne.
Qed.
End class_facts.

(** C3. [Render()] of a class built from the constructor by any calls is
    its indent prefix and ["class " + name + " {\n"], then the sections of
    public, protected and private in this fixed order, then
    [Indenting() + "};\n"]. The section of a bucket is empty when the bucket
    is, and otherwise the label line ([Indenting() + " public:\n"],
    [" protected:\n"], [" private:\n"]) followed by the renders of the
    snippets of the bucket in the order they were appended. [Add] appends at
    the end of its bucket and leaves the other buckets alone, and appends to
    different buckets can be exchanged without changing the class. A class
    with private members only has the single label line [" private:\n"]. *)
Theorem Class_Out_sections :
  (∀ name indent calls (c : Class.t),
     Calls.class_run calls (Class.new name indent) = Some c →
     Class.Out c
     = Some (Indent.Indenting (Class.indent_ c) +:+ "class " +:+ name +:+ " {" +:+ nl
             +:+ access_section c kPublic (" public:" +:+ nl)
             +:+ access_section c kProtected (" protected:" +:+ nl)
             +:+ access_section c kPrivate (" private:" +:+ nl)
             +:+ Indent.Indenting (Class.indent_ c) +:+ "};" +:+ nl)
     ∧ (Class.bucket c kPublic = [] → Class.bucket c kProtected = [] →
        Class.bucket c kPrivate ≠ [] →
        Class.Out c
        = Some (Indent.Indenting (Class.indent_ c) +:+ "class " +:+ name +:+ " {" +:+ nl
                +:+ Indent.Indenting (Class.indent_ c) +:+ " private:" +:+ nl
                +:+ concat_strings (Snippet.Out <$> Class.bucket c kPrivate)
                +:+ Indent.Indenting (Class.indent_ c) +:+ "};" +:+ nl)))
  ∧ (∀ (c : Class.t) a label,
       (Class.bucket c a = [] → access_section c a label = "")
       ∧ (Class.bucket c a ≠ [] →
          access_section c a label
          = Indent.Indenting (Class.indent_ c) +:+ label
            +:+ concat_strings (Snippet.Out <$> Class.bucket c a)))
  ∧ (∀ (c : Class.t) line a a',
       Class.bucket (Class.Add c line a) a'
       = if decide (a = a')
         then Class.bucket c a ++ [Snippet.Add (Class.snippet_copy c) line]
         else Class.bucket c a')
  ∧ (∀ (c : Class.t) a1 a2 sn1 sn2, a1 ≠ a2 →
       Class.emplace_back (Class.emplace_back c a1 sn1) a2 sn2
       = Class.emplace_back (Class.emplace_back c a2 sn2) a1 sn1)
  ∧ (∀ (c : Class.t) a1 a2 line1 line2, a1 ≠ a2 →
       Class.Add (Class.Add c line1 a1) line2 a2
       = Class.Add (Class.Add c line2 a2) line1 a1).
Proof.
  split_and!.
  - intros name indent calls c Hrun.
    pose proof (class_run_has_all_keys _ _ _ Hrun (has_all_keys_new _ _)) as Hkeys.
    destruct (class_run_frame _ _ _ Hrun) as (Hname & Hheader & Hfooter & _).
    simpl in Hname, Hheader, Hfooter.
    assert (Class.Out c
      = Some (Indent.Indenting (Class.indent_ c) +:+ "class " +:+ name +:+ " {" +:+ nl
              +:+ access_section c kPublic (" public:" +:+ nl)
              +:+ access_section c kProtected (" protected:" +:+ nl)
              +:+ access_section c kPrivate (" private:" +:+ nl)
              +:+ Indent.Indenting (Class.indent_ c) +:+ "};" +:+ nl)) as Hout.
    { rewrite (Class_Out_present c Hkeys), Hname, Hheader, Hfooter.
      by rewrite !string_app_assoc. }
    split; [exact Hout|].
    intros Hpub Hprot Hpriv. rewrite Hout. unfold access_section.
    rewrite Hpub, Hprot. destruct (Class.bucket c kPrivate) as [|sn bucket]; [done|].
    by rewrite !string_app_nil_l, !string_app_assoc.
  - intros c a label. unfold access_section. split.
    + by intros ->.
    + by destruct (Class.bucket c a).
  - intros c line a a'. apply bucket_emplace_back.
  - intros c a1 a2 sn1 sn2. apply emplace_back_commute.
  - intros c a1 a2 line1 line2 Hne. unfold Class.Add. by apply emplace_back_commute.
Qed.

Lemma Class_Out_sections_witness :
  (∃ c, Calls.class_run [Calls.CAdd "int y;" kPrivate; Calls.CAdd "int x;" kPublic]
          (Class.new "Foo" (Indent.new_default 0 kDefaultIndentSize)) = Some c
        ∧ Class.Out c
          = Some ("class Foo {" +:+ nl +:+ " public:" +:+ nl +:+ "  int x;" +:+ nl
                  +:+ " private:" +:+ nl +:+ "  int y;" +:+ nl +:+ "};" +:+ nl))
  ∧ (∃ c, Calls.class_run [Calls.CAdd "int y;" kPrivate]
            (Class.new "Foo" (Indent.new_default 0 kDefaultIndentSize)) = Some c
          ∧ Class.Out c
            = Some ("class Foo {" +:+ nl +:+ " private:" +:+ nl +:+ "  int y;" +:+ nl
                    +:+ "};" +:+ nl))
  ∧ access_section (Class.new "Foo" (Indent.new_default 0 kDefaultIndentSize))
      kPublic (" public:" +:+ nl) = ""
  ∧ Class.Add (Class.Add (Class.new "Foo" (Indent.new_default 0 kDefaultIndentSize))
                 "int y;" kPrivate) "int x;" kPublic
    = Class.Add (Class.Add (Class.new "Foo" (Indent.new_default 0 kDefaultIndentSize))
                   "int x;" kPublic) "int y;" kPrivate.
Proof.
  split_and!.
  - eexists. split; [reflexivity|].
    exact (proj1 (proj1 Class_Out_sections "Foo"
                    (Indent.new_default 0 kDefaultIndentSize)
                    [Calls.CAdd "int y;" kPrivate; Calls.CAdd "int x;" kPublic]
                    _ eq_refl)).
  - eexists. split; [reflexivity|].
    refine (proj2 (proj1 Class_Out_sections "Foo"
                     (Indent.new_default 0 kDefaultIndentSize)
                     [Calls.CAdd "int y;" kPrivate] _ eq_refl) eq_refl eq_refl _).
    discriminate.
  - exact (proj1 (proj1 (proj2 Class_Out_sections)
                    (Class.new "Foo" (Indent.new_default 0 kDefaultIndentSize))
                    kPublic (" public:" +:+ nl)) eq_refl).
  - apply (proj2 (proj2 (proj2 (proj2 Class_Out_sections)))). discriminate.
Defined.

(** ** Totality *)

Section totality.

Lemma Node_Out_well_formed (n : Node) :
  Node.well_formed n → is_Some (Node.Out n).
Proof.
  destruct n as [s|b|c]; simpl; [by eexists..|].
  intros Hc. unfold out, Class.has_out. rewrite (Class_Out_present c Hc). by eexists.
Qed.

Lemma Snippet_Add_any_total (s : Snippet.t) (n : Node) :
  Node.well_formed n → is_Some (Snippet.Add_any s n).
Proof.
  intros Hn. destruct (Node_Out_well_formed n Hn) as [text Htext].
  rewrite (Snippet_Add_any_lines (H := Node.has_out) s n text Htext). by eexists.
Qed.

Lemma Block_Add_any_total (b : Block.t) (n : Node) :
  Node.well_formed n → is_Some (Block.Add_any b n).
Proof.
  intros Hn. unfold Block.Add_any.
  destruct (Snippet_Add_any_total (Block.snippet_copy b) n Hn) as [sn ->].
  by eexists.
Qed.

Lemma Class_Add_any_total (c : Class.t) (n : Node) a :
  Node.well_formed n → is_Some (Class.Add_any c n a).
Proof.
  intros Hn. unfold Class.Add_any.
  destruct (Snippet_Add_any_total (Class.snippet_copy c) n Hn) as [sn ->].
  by eexists.
Qed.

Lemma block_run_total calls (b : Block.t) :
  Forall Calls.block_call_ok calls → is_Some (Calls.block_run calls b).
Proof.
  intros Hcalls. revert b.
  induction Hcalls as [|call calls Hcall _ IH]; intros b; simpl; [by eexists|].
  destruct call as [line|lines|n|k]; simpl; try apply IH.
  destruct (Block_Add_any_total b n Hcall) as [b' ->]. simpl. apply IH.
Qed.

Lemma class_run_total calls (c : Class.t) :
  Forall Calls.class_call_ok calls → is_Some (Calls.class_run calls c).
Proof.
  intros Hcalls. revert c.
  induction Hcalls as [|call calls Hcall _ IH]; intros c; simpl; [by eexists|].
  destruct call as [line a|lines a|n a|k]; simpl; try apply IH.
  destruct (Class_Add_any_total c n a Hcall) as [c' ->]. simpl. apply IH.
Qed.

End totality.

(** C9. No operation fails. [Indenting], the renders of snippets and
    blocks, the appends of text and [IncrementIndent] are functions with a
    result on every input, the empty string, the empty sequence and level
    zero included. The one operation able to throw, the [.at()] lookups in the
    render of a class, does not: the constructor puts the three access
    specifiers in the bucket map, every operation keeps them there, and
    with them present the render returns. Absorbing a node, which renders
    it, therefore returns too, and so does every sequence of calls on a
    block or on a constructed class. *)
Theorem operations_never_throw :
  (∀ name indent, Class.has_all_keys (Class.new name indent))
  ∧ (∀ c : Class.t, Class.has_all_keys c →
       (∀ line a, Class.has_all_keys (Class.Add c line a))
       ∧ (∀ lines a, Class.has_all_keys (Class.Add_lines c lines a))
       ∧ (∀ k, Class.has_all_keys (Class.IncrementIndent c k))
       ∧ (∀ (n : Node) a c', Class.Add_any c n a = Some c' → Class.has_all_keys c')
       ∧ ∃ text, Class.Out c = Some text)
  ∧ (∀ n : Node, Node.well_formed n →
       (∃ text, Node.Out n = Some text)
       ∧ (∀ s : Snippet.t, ∃ s', Snippet.Add_any s n = Some s')
       ∧ (∀ b : Block.t, ∃ b', Block.Add_any b n = Some b')
       ∧ (∀ (c : Class.t) a, ∃ c', Class.Add_any c n a = Some c'))
  ∧ (∀ (b0 : Block.t) calls, Forall Calls.block_call_ok calls →
       ∃ b, Calls.block_run calls b0 = Some b)
  ∧ (∀ name indent calls, Forall Calls.class_call_ok calls →
       ∃ c, Calls.class_run calls (Class.new name indent) = Some c
            ∧ Class.has_all_keys c
            ∧ ∃ text, Class.Out c = Some text).
Proof.
  split_and!.
  - apply has_all_keys_new.
  - intros c Hc. split_and!.
    + intros line a. by apply has_all_keys_emplace_back.
    + intros lines a. by apply has_all_keys_Add_lines.
    + intros k. by apply has_all_keys_IncrementIndent.
    + intros n a c' Hadd. by eapply has_all_keys_Add_any.
    + rewrite (Class_Out_present c Hc). by eexists.
  - intros n Hn. split_and!.
    + by apply Node_Out_well_formed.
    + intros s. by apply Snippet_Add_any_total.
    + intros b. by apply Block_Add_any_total.
    + intros c a. by apply Class_Add_any_total.
  - intros b0 calls Hcalls. by apply block_run_total.
  - intros name indent calls Hcalls.
    destruct (class_run_total calls (Class.new name indent) Hcalls) as [c Hrun].
    exists c. split; [done|].
    pose proof (class_run_has_all_keys _ _ _ Hrun (has_all_keys_new _ _)) as Hkeys.
    split; [done|]. rewrite (Class_Out_present c Hkeys). by eexists.
Qed.

Lemma operations_never_throw_witness :
  (Forall Calls.class_call_ok
     [Calls.CAdd "" kPublic; Calls.CAddLines [] kProtected;
      Calls.CAddNode (NClass (Class.new "Inner" (Indent.new_default 0 0))) kPrivate;
      Calls.CIncrementIndent 0]
   ∧ ∃ c, Calls.class_run
            [Calls.CAdd "" kPublic; Calls.CAddLines [] kProtected;
             Calls.CAddNode (NClass (Class.new "Inner" (Indent.new_default 0 0))) kPrivate;
             Calls.CIncrementIndent 0]
            (Class.new "" (Indent.new_default 0 0)) = Some c
          ∧ Class.has_all_keys c
          ∧ ∃ text, Class.Out c = Some text)
  ∧ (∃ b, Calls.block_run
            [Calls.BAddLines [];
             Calls.BAddNode (NSnippet (Snippet.line (Indent.new_default 0 0)))]
            (Block.code_block (Indent.new_default 0 0)) = Some b)
  ∧ (∃ text, Class.Out (Class.Add (Class.new "" (Indent.new_default 0 0)) "" kPrivate)
             = Some text)
  ∧ (∃ s', Snippet.Add_any (Snippet.line (Indent.new_default 0 0))
             (NClass (Class.new "" (Indent.new_default 0 0))) = Some s').
Proof.
  assert (Forall Calls.class_call_ok
    [Calls.CAdd "" kPublic; Calls.CAddLines [] kProtected;
     Calls.CAddNode (NClass (Class.new "Inner" (Indent.new_default 0 0))) kPrivate;
     Calls.CIncrementIndent 0]) as Hok.
  { repeat constructor; simpl; by eexists. }
  assert (Class.has_all_keys (Class.new "" (Indent.new_default 0 0))) as Hnew.
  { exact (proj1 operations_never_throw "" (Indent.new_default 0 0)). }
  split; [|split; [|split]].
  - split; [exact Hok|].
    exact (proj2 (proj2 (proj2 (proj2 operations_never_throw)))
             "" (Indent.new_default 0 0) _ Hok).
  - apply (proj1 (proj2 (proj2 (proj2 operations_never_throw)))).
    repeat constructor.
  - apply (proj1 (proj2 operations_never_throw)).
    by apply (proj1 (proj2 operations_never_throw) _ Hnew).
  - apply (proj1 (proj2 (proj2 operations_never_throw))
             (NClass (Class.new "" (Indent.new_default 0 0))) Hnew).
Defined.

(** ** A class inside a namespace *)

Section namespace_class.
Variables N X L : string.

Lemma Class_one_public_line_Out :
  Class.Out (Class.Add (Class.new X (Indent.new_default 0 kDefaultIndentSize)) L kPublic)
  = Some (concat_strings
            ((λ line, line +:+ nl)
               <$> ["class " +:+ X +:+ " {"; " public:"; "  " +:+ L; "};"])).
Proof.
  rewrite Class_Out_present
    by (apply has_all_keys_emplace_back, has_all_keys_new).
  unfold access_section, Class.Add.
  rewrite !bucket_emplace_back, !bucket_new. simpl.
  rewrite Snippet_Out_concat. simpl.
  by rewrite ?string_app_assoc, ?string_app_nil_r.
Qed.
End namespace_class.

(** C2. A namespace block named [N] at level 0 with the default indent,
    into which a class named [X] at level 0 holding the single public line
    [L] was added as a node, renders as ["namespace N {\n"], then the
    four lines ["class X {"], [" public:"], ["  " + L] and ["};"] of the
    class, each after the two spaces of the child indent of the namespace
    and closed by a line feed, then ["}\n"]. The name of the class and the
    line are single lines: they hold no line feed. *)
Theorem namespace_absorbs_class (N X L : string) :
  no_newline X = true → no_newline L = true →
  ∃ b : Block.t,
    Block.Add_any (Block.namespace N (Indent.new_default 0 kDefaultIndentSize))
      (Class.Add (Class.new X (Indent.new_default 0 kDefaultIndentSize)) L kPublic)
    = Some b
    ∧ Block.snippets_ b
      = [Snippet.mk (Indent.new_default 1 kDefaultIndentSize) "" "" kLine
           ["class " +:+ X +:+ " {"; " public:"; "  " +:+ L; "};"]]
    ∧ Block.Out b
      = "namespace " +:+ N +:+ " {" +:+ nl
        +:+ "  " +:+ "class " +:+ X +:+ " {" +:+ nl
        +:+ "  " +:+ " public:" +:+ nl
        +:+ "  " +:+ "  " +:+ L +:+ nl
        +:+ "  " +:+ "};" +:+ nl
        +:+ "}" +:+ nl.
Proof.
  intros HX HL.
  assert (Forall (λ line, no_newline line = true)
            ["class " +:+ X +:+ " {"; " public:"; "  " +:+ L; "};"]) as Hlines.
  { repeat constructor; rewrite ?no_newline_app, ?HX, ?HL; done. }
  eexists. split_and!.
  - unfold Block.Add_any.
    rewrite (Snippet_Add_any_lines _ _ _ (Class_one_public_line_Out X L)).
    rewrite (split_lines_terminated _ Hlines). reflexivity.
  - reflexivity.
  - rewrite Block_Out_concat. simpl. rewrite Snippet_Out_concat. simpl.
    by rewrite ?string_app_assoc, ?string_app_nil_r.
Qed.

Lemma namespace_absorbs_class_witness :
  ∃ b : Block.t,
    Block.Add_any (Block.namespace "N" (Indent.new_default 0 kDefaultIndentSize))
      (Class.Add (Class.new "X" (Indent.new_default 0 kDefaultIndentSize))
                 "void f();" kPublic)
    = Some b
    ∧ Block.Out b
      = "namespace N {" +:+ nl
        +:+ "  class X {" +:+ nl
        +:+ "   public:" +:+ nl
        +:+ "    void f();" +:+ nl
        +:+ "  };" +:+ nl
        +:+ "}" +:+ nl.
Proof.
  destruct (namespace_absorbs_class "N" "X" "void f();" eq_refl eq_refl)
    as (b & Hadd & _ & Hout).
  exists b. split; [exact Hadd | exact Hout].
Defined.

(** What a line feed inside the line does: the text after it becomes a
    line of its own in the namespace, indented like the others. *)
Example embedded_newline_opens_a_line :
  Block.Out <$>
    Block.Add_any (Block.namespace "N" (Indent.new_default 0 kDefaultIndentSize))
      (Class.Add (Class.new "X" (Indent.new_default 0 kDefaultIndentSize))
                 ("a" +:+ nl +:+ "b") kPublic)
  = Some ("namespace N {" +:+ nl
          +:+ "  class X {" +:+ nl
          +:+ "   public:" +:+ nl
          +:+ "    a" +:+ nl
          +:+ "  b" +:+ nl
          +:+ "  };" +:+ nl
          +:+ "}" +:+ nl).
Proof. reflexivity. Qed.

(** ** Absorbed nodes are snapshots *)

Section program_facts.
Implicit Types (σ : gmap string Node) (st : Program.stmt).

Lemma exec_other st σ σ' x :
  Program.exec st σ = Some σ' → Program.target st ≠ x → σ' !! x = σ !! x.
Proof.
  intros Hexec Hx.
  destruct st as [y line a|y lines a|y z a|y k]; simpl in *.
  - destruct (σ !! y); simplify_eq/=. by rewrite lookup_insert_ne.
  - destruct (σ !! y); simplify_eq/=. by rewrite lookup_insert_ne.
  - destruct (σ !! y) as [n|]; simplify_eq/=.
    destruct (σ !! z) as [other|]; simplify_eq/=.
    destruct (Node.Add_any n other a); simplify_eq/=.
    by rewrite lookup_insert_ne.
  - destruct (σ !! y); simplify_eq/=. by rewrite lookup_insert_ne.
Qed.

Lemma run_other prog σ σ' x :
  Program.run prog σ = Some σ' →
  Forall (λ st, Program.target st ≠ x) prog → σ' !! x = σ !! x.
Proof.
  intros Hrun Hprog. revert σ Hrun.
  induction Hprog as [|st prog Hst _ IH]; intros σ Hrun; simpl in Hrun.
  - by simplify_eq.
  - destruct (Program.exec st σ) as [σ1|] eqn:Hexec; simplify_eq/=.
    rewrite (IH _ Hrun). by eapply exec_other.
Qed.

Lemma exec_AddNode_inv σ σ1 parent child a :
  Program.exec (Program.AddNode parent child a) σ = Some σ1 →
  ∃ p0 ch p1,
    σ !! parent = Some p0 ∧ σ !! child = Some ch
    ∧ Node.Add_any p0 ch a = Some p1 ∧ σ1 = <[parent := p1]> σ.
Proof.
  simpl. intros Hexec.
  destruct (σ !! parent) as [p0|]; simplify_eq/=.
  destruct (σ !! child) as [ch|]; simplify_eq/=.
  destruct (Node.Add_any p0 ch a) as [p1|] eqn:Hadd; simplify_eq/=.
  by exists p0, ch, p1.
Qed.
End program_facts.

(** * Further properties *)

(** ** Appending several lines to a snippet; include directives *)

Section snippet_add_lines.
Implicit Types s : Snippet.t.

Lemma Snippet_Add_lines_mk s names :
  Snippet.Add_lines s names
  = Snippet.mk (Snippet.indent_ s) (Snippet.header_ s) (Snippet.footer_ s)
      (Snippet.type_ s)
      (Snippet.lines_ s
       ++ ((λ name, Snippet.header_ s +:+ name +:+ Snippet.footer_ s) <$> names)).
Proof.
  unfold Snippet.Add_lines. revert s.
  induction names as [|name names IH]; intros s; simpl.
  - destruct s. simpl. by rewrite app_nil_r.
  - rewrite IH. simpl. by rewrite <- app_assoc, string_app_assoc.
Qed.

Lemma concat_strings_app (l1 l2 : list string) :
  concat_strings (l1 ++ l2) = concat_strings l1 +:+ concat_strings l2.
Proof.
  induction l1 as [|x l1 IH]; [done|]. simpl. by rewrite IH, string_app_assoc.
Qed.

Lemma Snippet_Out_app indent H F ty (l1 l2 : list string) :
  Snippet.Out (Snippet.mk indent H F ty (l1 ++ l2))
  = Snippet.Out (Snippet.mk indent H F ty l1)
    +:+ Snippet.Out (Snippet.mk indent H F ty l2).
Proof.
  rewrite !Snippet_Out_concat. simpl. by rewrite fmap_app, concat_strings_app.
Qed.
End snippet_add_lines.

(** X1. [Snippet::Add(const std::vector<std::string>&)] appends the
    elements in their order, each wrapped as [header_ + element + footer_],
    after the lines already stored, and changes nothing else; the render
    grows by one line [Indenting() + header_ + element + footer_ + "\n"] per
    element. The empty vector changes nothing. *)
Theorem Snippet_Add_lines_appends_wrapped (s : Snippet.t) (names : list string) :
  Snippet.Add_lines s names
  = Snippet.mk (Snippet.indent_ s) (Snippet.header_ s) (Snippet.footer_ s)
      (Snippet.type_ s)
      (Snippet.lines_ s
       ++ ((λ name, Snippet.header_ s +:+ name +:+ Snippet.footer_ s) <$> names))
  ∧ Snippet.Out (Snippet.Add_lines s names)
    = Snippet.Out s
      +:+ concat_strings
            ((λ name,
                Indent.Indenting (Snippet.indent_ s) +:+ Snippet.header_ s
                +:+ name +:+ Snippet.footer_ s +:+ nl) <$> names)
  ∧ Snippet.Add_lines s [] = s.
Proof.
  split_and!.
  - apply Snippet_Add_lines_mk.
  - rewrite Snippet_Add_lines_mk, Snippet_Out_app.
    f_equal.
    rewrite Snippet_Out_concat. simpl. rewrite <- list_fmap_compose.
    f_equal. apply list_fmap_ext. intros _ name _. simpl.
    by rewrite !string_app_assoc.
  - done.
Qed.

(** X2. A system-include snippet renders each added name [n] as the line
    [Indenting() + "#include <" + n + ">"], and a local-include snippet
    with base directory [base] as [Indenting()], then [#include], a space
    and [base + n] between double quotes, in the order of the additions. *)
Theorem include_snippets_render (indent : Indent.t) (base : string)
    (names : list string) :
  Snippet.Out (Snippet.Add_lines (Snippet.system_include indent) names)
  = concat_strings
      ((λ name, Indent.Indenting indent +:+ "#include <" +:+ name +:+ ">" +:+ nl)
         <$> names)
  ∧ Snippet.Out (Snippet.Add_lines (Snippet.local_include base indent) names)
    = concat_strings
        ((λ name,
            Indent.Indenting indent +:+ "#include "
            +:+ String (Ascii.ascii_of_nat 34) "" +:+ base +:+ name
            +:+ String (Ascii.ascii_of_nat 34) "" +:+ nl) <$> names).
Proof.
  split.
  - rewrite Snippet_Add_lines_mk, Snippet_Out_concat. simpl.
    rewrite <- list_fmap_compose. f_equal. apply list_fmap_ext.
    intros _ name _. simpl. by rewrite !string_app_assoc.
  - rewrite Snippet_Add_lines_mk, Snippet_Out_concat. simpl.
    rewrite <- list_fmap_compose. f_equal. apply list_fmap_ext.
    intros _ name _. simpl. by rewrite !string_app_assoc.
Qed.

(** ** Renders are made of complete lines; reading a render back *)

Section terminated_facts.
Implicit Types s t acc : string.

Lemma ends_with_newline_cons c c' s :
  ends_with_newline (String c (String c' s)) = ends_with_newline (String c' s).
Proof. reflexivity. Qed.

Lemma string_app_nonempty s t : t ≠ "" → s +:+ t ≠ "".
Proof.
  intros Ht. destruct s; [by rewrite string_app_nil_l | by rewrite string_app_cons].
Qed.

Lemma ends_with_newline_app s t :
  t ≠ "" → ends_with_newline (s +:+ t) = ends_with_newline t.
Proof.
  intros Ht. induction s as [|c s IH]; [done|].
  rewrite string_app_cons. pose proof (string_app_nonempty s t Ht) as Hne.
  destruct (s +:+ t) as [|c' u]; [done|]. by rewrite ends_with_newline_cons.
Qed.

Lemma newline_terminated_nonempty s :
  s ≠ "" → newline_terminated s = ends_with_newline s.
Proof. by destruct s. Qed.

Lemma ends_with_newline_terminated s :
  ends_with_newline s = true → newline_terminated s = true.
Proof. by destruct s. Qed.

Lemma no_newline_not_ends s : no_newline s = true → ends_with_newline s = false.
Proof.
  induction s as [|c s IH]; [done|]. simpl.
  intros [Hc Hs]%andb_true_iff. destruct s as [|c' s].
  - by apply negb_true_iff in Hc.
  - by apply IH.
Qed.

Lemma ends_with_newline_line s t :
  newline_terminated t = true → ends_with_newline ((s +:+ nl) +:+ t) = true.
Proof.
  intros Ht. destruct t as [|c t].
  - rewrite string_app_nil_r. by rewrite ends_with_newline_app.
  - by rewrite ends_with_newline_app.
Qed.

Lemma newline_terminated_lines {A} (f : A → string) (l : list A) :
  newline_terminated (concat_strings ((λ x, f x +:+ nl) <$> l)) = true.
Proof.
  induction l as [|x l IH]; [done|]. rewrite fmap_cons. cbn [concat_strings].
  by apply ends_with_newline_terminated, ends_with_newline_line.
Qed.

Lemma terminate_text_after_line acc s :
  terminate_text (acc +:+ nl +:+ s) = acc +:+ nl +:+ terminate_text s.
Proof.
  unfold terminate_text. destruct s as [|c s].
  - rewrite !string_app_nil_r.
    by rewrite (ends_with_newline_terminated (acc +:+ nl))
      by (by rewrite ends_with_newline_app).
  - assert (newline_terminated (acc +:+ nl +:+ String c s)
            = newline_terminated (String c s)) as ->.
    { rewrite newline_terminated_nonempty by (by do 2 apply string_app_nonempty).
      rewrite ends_with_newline_app by (by apply string_app_nonempty).
      by rewrite ends_with_newline_app. }
    destruct (newline_terminated (String c s)); [done|].
    by rewrite !string_app_assoc.
Qed.

(** Writing the lines of a text one after the other, each closed by a line
    feed, gives the text back, its last line completed. *)
Lemma join_split_lines_from acc s :
  no_newline acc = true →
  concat_strings ((λ line, line +:+ nl) <$> split_lines_from acc s)
  = terminate_text (acc +:+ s).
Proof.
  revert acc. induction s as [|c s IH]; intros acc Hacc.
  - rewrite string_app_nil_r. simpl. unfold terminate_text.
    destruct acc as [|c acc]; [done|].
    assert (newline_terminated (String c acc) = false) as ->.
    { by apply (no_newline_not_ends (String c acc)). }
    simpl. by rewrite string_app_nil_r.
  - rewrite split_lines_from_cons. case_bool_decide as Hc.
    + subst c. rewrite fmap_cons. cbn [concat_strings].
      rewrite (IH "") by done. rewrite string_app_nil_l.
      change (String newline s) with (nl +:+ s).
      by rewrite terminate_text_after_line, string_app_assoc.
    + rewrite IH.
      * by rewrite string_app_assoc.
      * rewrite no_newline_app, Hacc. simpl. by rewrite bool_decide_eq_false_2.
Qed.

Lemma join_split_lines s :
  concat_strings ((λ line, line +:+ nl) <$> split_lines s) = terminate_text s.
Proof. unfold split_lines. by rewrite join_split_lines_from. Qed.

Lemma Snippet_Out_terminated (sn : Snippet.t) :
  newline_terminated (Snippet.Out sn) = true.
Proof.
  rewrite Snippet_Out_concat.
  rewrite (list_fmap_ext _
             (λ line, (Indent.Indenting (Snippet.indent_ sn) +:+ line) +:+ nl)
             (Snippet.lines_ sn)).
  - apply (newline_terminated_lines
             (λ line, Indent.Indenting (Snippet.indent_ sn) +:+ line)).
  - intros _ line _. simpl. by rewrite string_app_assoc.
Qed.

Lemma Block_Out_ends (b : Block.t) :
  ends_with_newline (Block.footer_ b) = true →
  ends_with_newline (Block.Out b) = true.
Proof.
  intros Hf. unfold Block.Out. simpl.
  assert (Block.footer_ b ≠ "") as Hne by (by destruct (Block.footer_ b)).
  rewrite ends_with_newline_app.
  - rewrite ends_with_newline_app; done.
  - by apply string_app_nonempty.
Qed.
End terminated_facts.

Lemma Class_Out_ends (c : Class.t) :
  Class.has_all_keys c → ends_with_newline (Class.footer_ c) = true →
  ∃ text, Class.Out c = Some text ∧ ends_with_newline text = true.
Proof.
  intros Hkeys Hf. rewrite (Class_Out_present c Hkeys). eexists. split; [done|].
  assert (Class.footer_ c ≠ "") as Hne by (by destruct (Class.footer_ c)).
  repeat (rewrite ends_with_newline_app by (by repeat apply string_app_nonempty)).
  done.
Qed.

(** X3. Every render is a text of complete lines. The render of a snippet
    is empty or ends with a line feed. The render of a block whose footer
    ends with a line feed (the footer ["}\n"] of the three constructors
    does) ends with a line feed after any sequence of calls, and so does
    the render of a class built from its constructor. *)
Theorem renders_end_with_newline :
  (∀ s : Snippet.t, newline_terminated (Snippet.Out s) = true)
  ∧ (∀ indent declaration name,
       ends_with_newline (Block.footer_ (Block.code_block indent)) = true
       ∧ ends_with_newline (Block.footer_ (Block.definition declaration indent)) = true
       ∧ ends_with_newline (Block.footer_ (Block.namespace name indent)) = true)
  ∧ (∀ (b0 : Block.t) calls b,
       ends_with_newline (Block.footer_ b0) = true →
       Calls.block_run calls b0 = Some b →
       ends_with_newline (Block.Out b) = true)
  ∧ (∀ name indent calls (c : Class.t),
       Calls.class_run calls (Class.new name indent) = Some c →
       ∃ text, Class.Out c = Some text ∧ ends_with_newline text = true).
Proof.
  split_and!.
  - apply Snippet_Out_terminated.
  - done.
  - intros b0 calls b Hf Hrun.
    destruct (block_run_frame _ _ _ Hrun) as (_ & Hfooter & _).
    apply Block_Out_ends. by rewrite Hfooter.
  - intros name indent calls c Hrun.
    destruct (class_run_frame _ _ _ Hrun) as (_ & _ & Hfooter & _).
    apply Class_Out_ends.
    + eapply class_run_has_all_keys; [exact Hrun|]. apply has_all_keys_new.
    + by rewrite Hfooter.
Qed.

Lemma renders_end_with_newline_witness :
  (∃ b, Calls.block_run [Calls.BAdd "int x;"; Calls.BIncrementIndent 1]
          (Block.namespace "N" (Indent.new_default 0 2)) = Some b
        ∧ ends_with_newline (Block.Out b) = true)
  ∧ (∃ c text, Calls.class_run [Calls.CAdd "int x;" kPublic]
                 (Class.new "Foo" (Indent.new_default 0 2)) = Some c
               ∧ Class.Out c = Some text ∧ ends_with_newline text = true).
Proof.
  split.
  - eexists. split; [reflexivity|].
    apply (proj1 (proj2 (proj2 renders_end_with_newline))
             (Block.namespace "N" (Indent.new_default 0 2))
             [Calls.BAdd "int x;"; Calls.BIncrementIndent 1]); reflexivity.
  - eexists.
    destruct (proj2 (proj2 (proj2 renders_end_with_newline))
                "Foo" (Indent.new_default 0 2) [Calls.CAdd "int x;" kPublic] _ eq_refl)
      as (text & Hout & Hends).
    exists text. split; [reflexivity|]. split; [exact Hout | exact Hends].
Defined.

(** X4. Absorbing a node into an empty plain snippet at level 0 and
    rendering that snippet gives the render of the node back: unchanged when
    it is a text of complete lines (empty, or ending with a line feed),
    and with its last line completed by a line feed otherwise. *)
Theorem absorb_at_level_zero_round_trip {T} `{HasOut T}
    (any : T) (text : string) (size : N) (c : ascii) :
  out any = Some text →
  ∃ s', Snippet.Add_any (Snippet.line (Indent.new 0 size c)) any = Some s'
        ∧ Snippet.Out s' = terminate_text text
        ∧ (newline_terminated text = true → Snippet.Out s' = text).
Proof.
  intros Hout. eexists. split.
  - by apply Snippet_Add_any_lines.
  - assert (Snippet.Out
              (Snippet.with_lines (Snippet.line (Indent.new 0 size c))
                 (Snippet.lines_ (Snippet.line (Indent.new 0 size c))
                  ++ split_lines text))
            = terminate_text text) as Hround.
    { rewrite Snippet_Out_concat. simpl. apply join_split_lines. }
    split; [exact Hround|]. intros Hterm. rewrite Hround.
    unfold terminate_text. by rewrite Hterm.
Qed.

Lemma absorb_at_level_zero_round_trip_witness :
  ∃ s', Snippet.Add_any (Snippet.line (Indent.new 0 2 " "))
          (Block.Add (Block.code_block (Indent.new_default 1 2)) "x;") = Some s'
        ∧ Snippet.Out s'
          = Block.Out (Block.Add (Block.code_block (Indent.new_default 1 2)) "x;").
Proof.
  destruct (absorb_at_level_zero_round_trip
              (Block.Add (Block.code_block (Indent.new_default 1 2)) "x;")
              _ 2%N " "%char eq_refl) as (s' & Hadd & _ & Hout).
  exists s'. split; [exact Hadd|]. apply Hout. reflexivity.
Defined.

(** ** The arithmetic of [IncrementIndent] *)

Section increment_algebra.

Lemma size_add_assoc a k j : size_add (size_add a k) j = size_add a (size_add k j).
Proof.
  unfold size_add. rewrite N.Div0.add_mod_idemp_l, N.Div0.add_mod_idemp_r.
  f_equal. lia.
Qed.

Lemma size_add_comm k j : size_add k j = size_add j k.
Proof. unfold size_add. f_equal. lia. Qed.

Lemma size_add_0_r a : in_range a → size_add a 0 = a.
Proof. intros Ha. unfold size_add. rewrite N.add_0_r. by apply N.mod_small. Qed.

Lemma size_add_neg k : size_add k (size_neg k) = 0%N.
Proof.
  unfold size_add, size_neg. rewrite N.Div0.add_mod_idemp_r.
  assert (k mod size_modulus < size_modulus)%N as Hlt by (by apply N.mod_lt).
  rewrite (N.div_mod k size_modulus) at 1 by done.
  replace (size_modulus * (k / size_modulus) + k mod size_modulus
           + (size_modulus - k mod size_modulus))%N
    with ((1 + k / size_modulus) * size_modulus)%N by lia.
  by apply N.Div0.mod_mul.
Qed.

Lemma Indent_add_level_compose i k j :
  Indent.add_level (Indent.add_level i k) j = Indent.add_level i (size_add k j).
Proof. unfold Indent.add_level. simpl. by rewrite size_add_assoc. Qed.

Lemma Indent_add_level_0 i : in_range (Indent.level_ i) → Indent.add_level i 0 = i.
Proof.
  intros Hi. unfold Indent.add_level. rewrite size_add_0_r by done. by destruct i.
Qed.

Lemma Snippet_IncrementIndent_compose (s : Snippet.t) k j :
  Snippet.IncrementIndent (Snippet.IncrementIndent s k) j
  = Snippet.IncrementIndent s (size_add k j).
Proof.
  unfold Snippet.IncrementIndent. simpl. by rewrite Indent_add_level_compose.
Qed.

Lemma Snippet_IncrementIndent_0 (s : Snippet.t) :
  in_range (snippet_level s) → Snippet.IncrementIndent s 0 = s.
Proof.
  intros Hs. unfold Snippet.IncrementIndent.
  rewrite Indent_add_level_0 by done. by destruct s.
Qed.

Lemma snippets_IncrementIndent_compose (l : list Snippet.t) k j :
  (λ sn, Snippet.IncrementIndent sn j)
    <$> ((λ sn, Snippet.IncrementIndent sn k) <$> l)
  = (λ sn, Snippet.IncrementIndent sn (size_add k j)) <$> l.
Proof.
  rewrite <- list_fmap_compose. apply list_fmap_ext.
  intros _ sn _. apply Snippet_IncrementIndent_compose.
Qed.

Lemma snippets_IncrementIndent_0 (l : list Snippet.t) :
  Forall (λ sn, in_range (snippet_level sn)) l →
  (λ sn, Snippet.IncrementIndent sn 0) <$> l = l.
Proof.
  induction 1 as [|sn l Hsn _ IH]; [done|].
  rewrite fmap_cons, IH. by rewrite Snippet_IncrementIndent_0.
Qed.

Lemma Block_IncrementIndent_compose (b : Block.t) k j :
  Block.IncrementIndent (Block.IncrementIndent b k) j
  = Block.IncrementIndent b (size_add k j).
Proof.
  unfold Block.IncrementIndent. simpl.
  by rewrite Indent_add_level_compose, snippets_IncrementIndent_compose.
Qed.

Lemma Block_IncrementIndent_0 (b : Block.t) :
  in_range (block_level b) →
  Forall (λ sn, in_range (snippet_level sn)) (Block.snippets_ b) →
  Block.IncrementIndent b 0 = b.
Proof.
  intros Hb Hsn. unfold Block.IncrementIndent.
  rewrite Indent_add_level_0, snippets_IncrementIndent_0 by done. by destruct b.
Qed.

Lemma Class_IncrementIndent_compose (c : Class.t) k j :
  Class.IncrementIndent (Class.IncrementIndent c k) j
  = Class.IncrementIndent c (size_add k j).
Proof.
  unfold Class.IncrementIndent. simpl. rewrite Indent_add_level_compose.
  f_equal. rewrite <- map_fmap_compose. apply map_fmap_ext.
  intros a bucket _. simpl. apply snippets_IncrementIndent_compose.
Qed.

Lemma Class_IncrementIndent_0 (c : Class.t) :
  in_range (class_level c) →
  (∀ a bucket, Class.snippets_ c !! a = Some bucket →
               Forall (λ sn, in_range (snippet_level sn)) bucket) →
  Class.IncrementIndent c 0 = c.
Proof.
  intros Hc Hsn. unfold Class.IncrementIndent.
  rewrite Indent_add_level_0 by done.
  assert (fmap (M := gmap AccessSpecifier)
            (fmap (M := list) (λ sn, Snippet.IncrementIndent sn 0))
            (Class.snippets_ c) = Class.snippets_ c) as ->.
  { rewrite <- (map_fmap_id (Class.snippets_ c)) at 2. apply map_fmap_ext.
    intros a bucket Ha. simpl. apply snippets_IncrementIndent_0. by eapply Hsn. }
  by destruct c.
Qed.

End increment_algebra.

(** X5. Two [IncrementIndent] calls in a row are one call with the sum of
    the two arguments, the sum being taken in [std::size_t]; the order of the
    two calls does not matter. This holds for snippets, blocks and classes. *)
Theorem IncrementIndent_composes :
  (∀ (s : Snippet.t) k j,
     Snippet.IncrementIndent (Snippet.IncrementIndent s k) j
     = Snippet.IncrementIndent s (size_add k j)
     ∧ Snippet.IncrementIndent (Snippet.IncrementIndent s k) j
       = Snippet.IncrementIndent (Snippet.IncrementIndent s j) k)
  ∧ (∀ (b : Block.t) k j,
       Block.IncrementIndent (Block.IncrementIndent b k) j
       = Block.IncrementIndent b (size_add k j)
       ∧ Block.IncrementIndent (Block.IncrementIndent b k) j
         = Block.IncrementIndent (Block.IncrementIndent b j) k)
  ∧ (∀ (c : Class.t) k j,
       Class.IncrementIndent (Class.IncrementIndent c k) j
       = Class.IncrementIndent c (size_add k j)
       ∧ Class.IncrementIndent (Class.IncrementIndent c k) j
         = Class.IncrementIndent (Class.IncrementIndent c j) k).
Proof.
  split_and!.
  - intros s k j. split; [apply Snippet_IncrementIndent_compose|].
    by rewrite !Snippet_IncrementIndent_compose, size_add_comm.
  - intros b k j. split; [apply Block_IncrementIndent_compose|].
    by rewrite !Block_IncrementIndent_compose, size_add_comm.
  - intros c k j. split; [apply Class_IncrementIndent_compose|].
    by rewrite !Class_IncrementIndent_compose, size_add_comm.
Qed.

(** X6. Levels wrap around: for a node whose levels are values of
    [std::size_t], [IncrementIndent(k)] followed by
    [IncrementIndent(static_cast<std::size_t>(-k))] gives the node back
    exactly, and [IncrementIndent(0)] changes nothing. *)
Theorem IncrementIndent_is_undone_by_negation :
  (∀ (s : Snippet.t) k, in_range (snippet_level s) →
     Snippet.IncrementIndent (Snippet.IncrementIndent s k) (size_neg k) = s
     ∧ Snippet.IncrementIndent s 0 = s)
  ∧ (∀ (b : Block.t) k, in_range (block_level b) →
       Forall (λ sn, in_range (snippet_level sn)) (Block.snippets_ b) →
       Block.IncrementIndent (Block.IncrementIndent b k) (size_neg k) = b
       ∧ Block.IncrementIndent b 0 = b)
  ∧ (∀ (c : Class.t) k, in_range (class_level c) →
       (∀ a bucket, Class.snippets_ c !! a = Some bucket →
                    Forall (λ sn, in_range (snippet_level sn)) bucket) →
       Class.IncrementIndent (Class.IncrementIndent c k) (size_neg k) = c
       ∧ Class.IncrementIndent c 0 = c).
Proof.
  split_and!.
  - intros s k Hs.
    rewrite Snippet_IncrementIndent_compose, size_add_neg.
    split; by apply Snippet_IncrementIndent_0.
  - intros b k Hb Hsn.
    rewrite Block_IncrementIndent_compose, size_add_neg.
    split; by apply Block_IncrementIndent_0.
  - intros c k Hc Hsn.
    rewrite Class_IncrementIndent_compose, size_add_neg.
    split; by apply Class_IncrementIndent_0.
Qed.

Lemma IncrementIndent_is_undone_by_negation_witness :
  Snippet.IncrementIndent
    (Snippet.IncrementIndent (Snippet.Add (Snippet.line (Indent.new_default 3 2)) "x") 5)
    (size_neg 5)
  = Snippet.Add (Snippet.line (Indent.new_default 3 2)) "x"
  ∧ Block.IncrementIndent
      (Block.IncrementIndent (Block.Add (Block.code_block (Indent.new_default 3 2)) "x") 5)
      (size_neg 5)
    = Block.Add (Block.code_block (Indent.new_default 3 2)) "x"
  ∧ Class.IncrementIndent
      (Class.IncrementIndent (Class.Add (Class.new "Foo" (Indent.new_default 3 2)) "x" kPublic) 5)
      (size_neg 5)
    = Class.Add (Class.new "Foo" (Indent.new_default 3 2)) "x" kPublic.
Proof.
  split_and!.
  - apply (proj1 IncrementIndent_is_undone_by_negation). reflexivity.
  - apply (proj1 (proj2 IncrementIndent_is_undone_by_negation)).
    + reflexivity.
    + repeat constructor.
  - apply (proj2 (proj2 IncrementIndent_is_undone_by_negation)).
    + reflexivity.
    + intros a bucket Ha. destruct a; vm_compute in Ha;
        injection Ha as <-; repeat constructor.
Defined.

(** ** Adding before or after re-indenting *)

Section add_increment.

Lemma new_default_add_level level size k :
  Indent.add_level (Indent.new_default (size_add level 1) size) k
  = Indent.new_default (size_add (size_add level k) 1) size.
Proof.
  unfold Indent.add_level, Indent.new_default, Indent.new. simpl.
  by rewrite size_add_swap.
Qed.

Lemma Block_snippet_copy_increment (b : Block.t) k lines :
  Snippet.IncrementIndent (Snippet.with_lines (Block.snippet_copy b) lines) k
  = Snippet.with_lines (Block.snippet_copy (Block.IncrementIndent b k)) lines.
Proof.
  unfold Snippet.IncrementIndent, Snippet.with_lines, Block.snippet_copy. simpl.
  by rewrite new_default_add_level.
Qed.

Lemma Class_snippet_copy_increment (c : Class.t) k lines :
  Snippet.IncrementIndent (Snippet.with_lines (Class.snippet_copy c) lines) k
  = Snippet.with_lines (Class.snippet_copy (Class.IncrementIndent c k)) lines.
Proof.
  unfold Snippet.IncrementIndent, Snippet.with_lines, Class.snippet_copy. simpl.
  by rewrite new_default_add_level.
Qed.

Lemma Block_emplace_back_increment (b : Block.t) sn k :
  Block.IncrementIndent (Block.emplace_back b sn) k
  = Block.emplace_back (Block.IncrementIndent b k) (Snippet.IncrementIndent sn k).
Proof.
  unfold Block.IncrementIndent, Block.emplace_back. simpl. by rewrite fmap_app.
Qed.

Lemma Class_emplace_back_increment (c : Class.t) a sn k :
  Class.IncrementIndent (Class.emplace_back c a sn) k
  = Class.emplace_back (Class.IncrementIndent c k) a (Snippet.IncrementIndent sn k).
Proof.
  unfold Class.IncrementIndent, Class.emplace_back. simpl. f_equal.
  rewrite fmap_insert, lookup_fmap. f_equal.
  rewrite fmap_app. by destruct (Class.snippets_ c !! a).
Qed.

Lemma Block_Add_increment (b : Block.t) line k :
  Block.IncrementIndent (Block.Add b line) k
  = Block.Add (Block.IncrementIndent b k) line.
Proof.
  unfold Block.Add. rewrite Block_emplace_back_increment. f_equal.
  apply (Block_snippet_copy_increment b k [("" +:+ line) +:+ ""]).
Qed.

Lemma Class_Add_increment (c : Class.t) line a k :
  Class.IncrementIndent (Class.Add c line a) k
  = Class.Add (Class.IncrementIndent c k) line a.
Proof.
  unfold Class.Add. rewrite Class_emplace_back_increment. f_equal.
  apply (Class_snippet_copy_increment c k [("" +:+ line) +:+ ""]).
Qed.

Lemma Block_Add_any_increment {T} `{HasOut T} (b : Block.t) (any : T) k :
  (λ b', Block.IncrementIndent b' k) <$> Block.Add_any b any
  = Block.Add_any (Block.IncrementIndent b k) any.
Proof.
  unfold Block.Add_any, Snippet.Add_any. destruct (out any) as [text|]; [|done].
  simpl. rewrite Block_emplace_back_increment. do 2 f_equal.
  apply Block_snippet_copy_increment.
Qed.

Lemma Class_Add_any_increment {T} `{HasOut T} (c : Class.t) (any : T) a k :
  (λ c', Class.IncrementIndent c' k) <$> Class.Add_any c any a
  = Class.Add_any (Class.IncrementIndent c k) any a.
Proof.
  unfold Class.Add_any, Snippet.Add_any. destruct (out any) as [text|]; [|done].
  simpl. rewrite Class_emplace_back_increment. do 2 f_equal.
  apply Class_snippet_copy_increment.
Qed.

Lemma Block_Add_lines_increment (b : Block.t) lines k :
  Block.IncrementIndent (Block.Add_lines b lines) k
  = Block.Add_lines (Block.IncrementIndent b k) lines.
Proof.
  unfold Block.Add_lines. revert b.
  induction lines as [|line lines IH]; intros b; simpl; [done|].
  by rewrite IH, Block_Add_increment.
Qed.

Lemma Class_Add_lines_increment (c : Class.t) lines a k :
  Class.IncrementIndent (Class.Add_lines c lines a) k
  = Class.Add_lines (Class.IncrementIndent c k) lines a.
Proof.
  unfold Class.Add_lines. revert c.
  induction lines as [|line lines IH]; intros c; simpl; [done|].
  by rewrite IH, Class_Add_increment.
Qed.

End add_increment.

(** X7. For a block and for a class, adding and then re-indenting is the
    same as re-indenting and then adding: [IncrementIndent(k)] after an
    [Add] of a line, of several lines or of a node leaves the parent in the
    state that the same [Add] after [IncrementIndent(k)] gives. *)
Theorem Add_commutes_with_IncrementIndent :
  (∀ (b : Block.t) line k,
     Block.IncrementIndent (Block.Add b line) k
     = Block.Add (Block.IncrementIndent b k) line)
  ∧ (∀ (b : Block.t) lines k,
       Block.IncrementIndent (Block.Add_lines b lines) k
       = Block.Add_lines (Block.IncrementIndent b k) lines)
  ∧ (∀ (b : Block.t) (n : Node) k,
       (λ b', Block.IncrementIndent b' k) <$> Block.Add_any b n
       = Block.Add_any (Block.IncrementIndent b k) n)
  ∧ (∀ (c : Class.t) line a k,
       Class.IncrementIndent (Class.Add c line a) k
       = Class.Add (Class.IncrementIndent c k) line a)
  ∧ (∀ (c : Class.t) lines a k,
       Class.IncrementIndent (Class.Add_lines c lines a) k
       = Class.Add_lines (Class.IncrementIndent c k) lines a)
  ∧ (∀ (c : Class.t) (n : Node) a k,
       (λ c', Class.IncrementIndent c' k) <$> Class.Add_any c n a
       = Class.Add_any (Class.IncrementIndent c k) n a).
Proof.
  split_and!.
  - apply Block_Add_increment.
  - apply Block_Add_lines_increment.
  - intros b n k. apply Block_Add_any_increment.
  - apply Class_Add_increment.
  - apply Class_Add_lines_increment.
  - intros c n a k. apply Class_Add_any_increment.
Qed.

(** ** Adding lines to a block or to a class *)

Section add_lines.

Lemma Snippet_Add_line_plain indent line :
  Snippet.Add (Snippet.line indent) line = Snippet.mk indent "" "" kLine [line].
Proof.
  unfold Snippet.Add, Snippet.with_lines. simpl.
  by rewrite string_app_nil_l, string_app_nil_r.
Qed.

Lemma Block_Add_lines_mk (b : Block.t) lines :
  Block.Add_lines b lines
  = Block.mk (Block.indent_ b) (Block.header_ b) (Block.footer_ b) (Block.type_ b)
      (Block.snippets_ b
       ++ ((λ line,
              Snippet.mk
                (Indent.new_default (size_add (block_level b) 1)
                   (Indent.size_ (Block.indent_ b)))
                "" "" kLine [line]) <$> lines)).
Proof.
  unfold Block.Add_lines. revert b.
  induction lines as [|line lines IH]; intros b; simpl.
  - destruct b. simpl. by rewrite app_nil_r.
  - rewrite IH. unfold Block.Add at 1 2 3 4 5, Block.emplace_back. simpl.
    unfold Block.snippet_copy. rewrite Snippet_Add_line_plain.
    by rewrite <- app_assoc.
Qed.

Lemma Class_bucket_Add_lines (c : Class.t) lines a a' :
  Class.bucket (Class.Add_lines c lines a) a'
  = if decide (a = a')
    then Class.bucket c a
         ++ ((λ line,
                Snippet.mk
                  (Indent.new_default (size_add (class_level c) 1)
                     (Indent.size_ (Class.indent_ c)))
                  "" "" kLine [line]) <$> lines)
    else Class.bucket c a'.
Proof.
  unfold Class.Add_lines. revert c.
  induction lines as [|line lines IH]; intros c; simpl.
  - case_decide; [|done]. subst. by rewrite app_nil_r.
  - rewrite IH. unfold Class.Add. rewrite !bucket_emplace_back.
    unfold Class.snippet_copy. rewrite Snippet_Add_line_plain. simpl.
    destruct (decide (a = a')) as [->|Hne]; [|done].
    rewrite decide_True by done. by rewrite <- app_assoc.
Qed.

End add_lines.

(** X8. [Block::Add(const std::vector<std::string>&)] makes one wrapping
    snippet per element: the children grow, in order, by one plain snippet
    per line, each holding that line as it is, one level deeper than the
    block and indented with spaces; in the render the new lines come between
    the earlier children and the footer. [Add] of one line is the case of a
    vector with one element. *)
Theorem Block_Add_lines_one_snippet_per_line (b : Block.t) (lines : list string) :
  Block.Add_lines b lines
  = Block.mk (Block.indent_ b) (Block.header_ b) (Block.footer_ b) (Block.type_ b)
      (Block.snippets_ b
       ++ ((λ line,
              Snippet.mk
                (Indent.new_default (size_add (block_level b) 1)
                   (Indent.size_ (Block.indent_ b)))
                "" "" kLine [line]) <$> lines))
  ∧ length (Block.snippets_ (Block.Add_lines b lines))
    = (length (Block.snippets_ b) + length lines)%nat
  ∧ Block.Out (Block.Add_lines b lines)
    = Indent.Indenting (Block.indent_ b) +:+ Block.header_ b
      +:+ concat_strings (Snippet.Out <$> Block.snippets_ b)
      +:+ concat_strings
            ((λ line,
                Indent.Indenting
                  (Indent.new_default (size_add (block_level b) 1)
                     (Indent.size_ (Block.indent_ b)))
                +:+ line +:+ nl) <$> lines)
      +:+ Indent.Indenting (Block.indent_ b) +:+ Block.footer_ b
  ∧ (∀ line, Block.Add b line = Block.Add_lines b [line]).
Proof.
  split_and!.
  - apply Block_Add_lines_mk.
  - rewrite Block_Add_lines_mk. simpl. by rewrite length_app, length_fmap.
  - rewrite Block_Add_lines_mk, Block_Out_concat. simpl.
    rewrite fmap_app, concat_strings_app, <- list_fmap_compose.
    rewrite !string_app_assoc.
    rewrite (list_fmap_ext
               (Snippet.Out ∘ (λ line,
                  Snippet.mk
                    (Indent.new_default (size_add (block_level b) 1)
                       (Indent.size_ (Block.indent_ b))) "" "" kLine [line]))
               (λ line,
                  Indent.Indenting
                    (Indent.new_default (size_add (block_level b) 1)
                       (Indent.size_ (Block.indent_ b))) +:+ line +:+ nl) lines);
      [done|].
    intros _ line _. simpl.
    rewrite Snippet_Out_concat. simpl. by rewrite ?string_app_nil_r, ?string_app_assoc.
  - done.
Qed.

(** X9. [Class::Add(const std::vector<std::string>&, access)] appends one
    plain snippet per line, in order, to the bucket of [access], each one
    level deeper than the class and indented with spaces, and leaves the
    other two buckets as they were. *)
Theorem Class_Add_lines_fills_one_bucket
    (c : Class.t) (lines : list string) (a a' : AccessSpecifier) :
  Class.bucket (Class.Add_lines c lines a) a'
  = if decide (a = a')
    then Class.bucket c a
         ++ ((λ line,
                Snippet.mk
                  (Indent.new_default (size_add (class_level c) 1)
                     (Indent.size_ (Class.indent_ c)))
                  "" "" kLine [line]) <$> lines)
    else Class.bucket c a'.
Proof. apply Class_bucket_Add_lines. Qed.

(** ** What re-indenting does to the render *)

Section increment_render.

Lemma append_times_acc n piece acc :
  append_times n piece acc = acc +:+ append_times n piece "".
Proof.
  revert acc. induction n as [|n IH]; intros acc; simpl.
  - by rewrite string_app_nil_r.
  - rewrite (IH (acc +:+ piece)), (IH ("" +:+ piece)).
    by rewrite string_app_nil_l, string_app_assoc.
Qed.

Lemma append_times_plus n m piece :
  append_times (n + m) piece ""
  = append_times n piece "" +:+ append_times m piece "".
Proof.
  induction n as [|n IH]; simpl; [done|].
  rewrite !(append_times_acc _ piece ("" +:+ piece)), IH.
  by rewrite !string_app_nil_l, string_app_assoc.
Qed.

Lemma Indenting_add_level i k :
  (Indent.level_ i + k < size_modulus)%N →
  Indent.Indenting (Indent.add_level i k) = indent_pad i k +:+ Indent.Indenting i.
Proof.
  intros Hlt. unfold Indent.Indenting, indent_pad. simpl.
  rewrite size_add_exact by done.
  replace (N.to_nat (Indent.level_ i + k))
    with (N.to_nat k + N.to_nat (Indent.level_ i))%nat by lia.
  apply append_times_plus.
Qed.

Lemma Indenting_add_level_wrap i k :
  (Indent.level_ i + k)%N = size_modulus →
  Indent.Indenting (Indent.add_level i k) = "".
Proof.
  intros Heq. unfold Indent.Indenting. simpl. unfold size_add. by rewrite Heq.
Qed.

Lemma indent_pad_length i k :
  indent_cached i → String.length (indent_pad i k) = N.to_nat (k * Indent.size_ i).
Proof.
  intros Hi. unfold indent_pad.
  rewrite append_times_length, indent_string_length by done. simpl. lia.
Qed.

Lemma Snippet_Out_IncrementIndent (s : Snippet.t) k :
  (snippet_level s + k < size_modulus)%N →
  Snippet.Out (Snippet.IncrementIndent s k)
  = concat_strings
      ((λ line,
          indent_pad (Snippet.indent_ s) k +:+ Indent.Indenting (Snippet.indent_ s)
          +:+ line +:+ nl) <$> Snippet.lines_ s).
Proof.
  intros Hlt. rewrite Snippet_Out_concat. simpl.
  rewrite Indenting_add_level by done.
  f_equal. apply list_fmap_ext. intros _ line _. simpl.
  by rewrite !string_app_assoc.
Qed.

End increment_render.

(** X10. Unless the level wraps around, [IncrementIndent(k)] moves the
    render to the right by [k] units of indentation: every line of a snippet
    gets [k] more copies of the snippet's indent unit in front, and in a
    block so do the header, the footer and every line of every child, each
    with its own unit ([k × size_] characters for an [Indent] made by the
    constructor). When the sum of the level and [k] is exactly [2^64] the
    level wraps to zero and the indentation is empty. *)
Theorem IncrementIndent_shifts_render :
  (∀ (s : Snippet.t) k,
     (snippet_level s + k < size_modulus)%N →
     Snippet.Out (Snippet.IncrementIndent s k)
     = concat_strings
         ((λ line,
             indent_pad (Snippet.indent_ s) k
             +:+ Indent.Indenting (Snippet.indent_ s) +:+ line +:+ nl)
            <$> Snippet.lines_ s))
  ∧ (∀ (b : Block.t) k,
       (block_level b + k < size_modulus)%N →
       Forall (λ sn, (snippet_level sn + k < size_modulus)%N) (Block.snippets_ b) →
       Block.Out (Block.IncrementIndent b k)
       = indent_pad (Block.indent_ b) k +:+ Indent.Indenting (Block.indent_ b)
         +:+ Block.header_ b
         +:+ concat_strings
               ((λ sn,
                   concat_strings
                     ((λ line,
                         indent_pad (Snippet.indent_ sn) k
                         +:+ Indent.Indenting (Snippet.indent_ sn) +:+ line +:+ nl)
                        <$> Snippet.lines_ sn)) <$> Block.snippets_ b)
         +:+ indent_pad (Block.indent_ b) k +:+ Indent.Indenting (Block.indent_ b)
         +:+ Block.footer_ b)
  ∧ (∀ (i : Indent.t) k,
       (Indent.level_ i + k)%N = size_modulus →
       Indent.Indenting (Indent.add_level i k) = "")
  ∧ (∀ level size c k,
       String.length (indent_pad (Indent.new level size c) k) = N.to_nat (k * size)
       ∧ all_chars c (indent_pad (Indent.new level size c) k) = true).
Proof.
  split_and!.
  - apply Snippet_Out_IncrementIndent.
  - intros b k Hb Hsn. rewrite Block_Out_concat. simpl.
    rewrite Indenting_add_level by done.
    rewrite <- list_fmap_compose.
    rewrite (list_fmap_ext
               (Snippet.Out ∘ (λ sn, Snippet.IncrementIndent sn k))
               (λ sn,
                  concat_strings
                    ((λ line,
                        indent_pad (Snippet.indent_ sn) k
                        +:+ Indent.Indenting (Snippet.indent_ sn) +:+ line +:+ nl)
                       <$> Snippet.lines_ sn)) (Block.snippets_ b)).
    + by rewrite !string_app_assoc.
    + intros j sn Hj. simpl. apply Snippet_Out_IncrementIndent.
      rewrite Forall_lookup in Hsn. by eapply Hsn.
  - apply Indenting_add_level_wrap.
  - intros level size c k. split.
    + apply (indent_pad_length (Indent.new level size c)), indent_cached_new.
    + unfold indent_pad. apply append_times_all_chars; [|done].
      apply (indent_string_all_chars (Indent.new level size c)), indent_cached_new.
Qed.

Lemma IncrementIndent_shifts_render_witness :
  Block.Out (Block.IncrementIndent
               (Block.Add (Block.code_block (Indent.new_default 0 2)) "x;") 2)
  = "    {" +:+ nl +:+ "      x;" +:+ nl +:+ "    }" +:+ nl
  ∧ Snippet.Out (Snippet.IncrementIndent
                   (Snippet.Add (Snippet.line (Indent.new_default 1 2)) "y") 1)
    = "    y" +:+ nl
  ∧ Indent.Indenting
      (Indent.add_level (Indent.new_default (size_modulus - 1) 0) 1) = "".
Proof.
  split_and!.
  - refine (proj1 (proj2 IncrementIndent_shifts_render)
              (Block.Add (Block.code_block (Indent.new_default 0 2)) "x;") 2%N _ _).
    + reflexivity.
    + repeat constructor.
  - refine (proj1 IncrementIndent_shifts_render
              (Snippet.Add (Snippet.line (Indent.new_default 1 2)) "y") 1%N _).
    reflexivity.
  - apply (proj1 (proj2 (proj2 IncrementIndent_shifts_render))). reflexivity.
Defined.

(** ** Absorbing a snippet *)

Section absorb_snippet.

Lemma append_times_no_newline n piece acc :
  no_newline piece = true → no_newline acc = true →
  no_newline (append_times n piece acc) = true.
Proof.
  intros Hp. revert acc. induction n as [|n IH]; intros acc Hacc; simpl; [done|].
  apply IH. by rewrite no_newline_app, Hacc, Hp.
Qed.

Lemma Indenting_no_newline level size c :
  c ≠ newline → no_newline (Indent.Indenting (Indent.new level size c)) = true.
Proof.
  intros Hc. apply append_times_no_newline; [|done].
  apply append_times_no_newline; [|done].
  simpl. by rewrite bool_decide_eq_false_2.
Qed.

Lemma split_lines_Snippet_Out (other : Snippet.t) :
  no_newline (Indent.Indenting (Snippet.indent_ other)) = true →
  Forall (λ line, no_newline line = true) (Snippet.lines_ other) →
  split_lines (Snippet.Out other)
  = (λ line, Indent.Indenting (Snippet.indent_ other) +:+ line)
      <$> Snippet.lines_ other.
Proof.
  intros Hind Hlines. rewrite Snippet_Out_concat.
  rewrite (list_fmap_ext _
             ((λ line, line +:+ nl)
              ∘ (λ line, Indent.Indenting (Snippet.indent_ other) +:+ line))
             (Snippet.lines_ other)).
  - rewrite list_fmap_compose. apply split_lines_terminated.
    apply Forall_fmap. eapply Forall_impl; [|exact Hlines].
    intros line Hline. simpl. by rewrite no_newline_app, Hind, Hline.
  - intros _ line _. simpl. by rewrite string_app_assoc.
Qed.

End absorb_snippet.

(** X11. A snippet absorbed into another node keeps its own indentation
    as text. When its lines and its indentation hold no line feed (true of
    the indentation of any [Indent] whose fill character is not the line
    feed), [Add(other)] appends, for each line of [other], the line
    [other.Indenting() + line]; in a block the new child renders these lines
    behind the child indent of the block, between the earlier children and
    the footer. An absorbed snippet without lines adds a child that
    renders nothing. *)
Theorem absorbed_snippet_keeps_indentation (s other : Snippet.t) :
  no_newline (Indent.Indenting (Snippet.indent_ other)) = true →
  Forall (λ line, no_newline line = true) (Snippet.lines_ other) →
  Snippet.Add_any s other
  = Some (Snippet.mk (Snippet.indent_ s) (Snippet.header_ s) (Snippet.footer_ s)
            (Snippet.type_ s)
            (Snippet.lines_ s
             ++ ((λ line, Indent.Indenting (Snippet.indent_ other) +:+ line)
                   <$> Snippet.lines_ other)))
  ∧ (∀ b : Block.t, ∃ b',
       Block.Add_any b other = Some b'
       ∧ length (Block.snippets_ b') = S (length (Block.snippets_ b))
       ∧ Block.Out b'
         = Indent.Indenting (Block.indent_ b) +:+ Block.header_ b
           +:+ concat_strings (Snippet.Out <$> Block.snippets_ b)
           +:+ concat_strings
                 ((λ line,
                     Indent.Indenting
                       (Indent.new_default (size_add (block_level b) 1)
                          (Indent.size_ (Block.indent_ b)))
                     +:+ Indent.Indenting (Snippet.indent_ other) +:+ line +:+ nl)
                    <$> Snippet.lines_ other)
           +:+ Indent.Indenting (Block.indent_ b) +:+ Block.footer_ b
       ∧ (Snippet.lines_ other = [] → Block.Out b' = Block.Out b))
  ∧ (∀ level size c,
       c ≠ newline → no_newline (Indent.Indenting (Indent.new level size c)) = true).
Proof.
  intros Hind Hlines.
  pose proof (split_lines_Snippet_Out other Hind Hlines) as Hsplit.
  split_and!.
  - rewrite (Snippet_Add_any_lines s other (Snippet.Out other) eq_refl).
    by rewrite Hsplit.
  - intros b. unfold Block.Add_any.
    rewrite (Snippet_Add_any_lines _ other (Snippet.Out other) eq_refl), Hsplit.
    simpl. eexists. split; [reflexivity|]. split.
    { simpl. rewrite length_app. simpl. lia. }
    assert (Block.Out
              (Block.emplace_back b
                 (Snippet.with_lines (Block.snippet_copy b)
                    ((λ line, Indent.Indenting (Snippet.indent_ other) +:+ line)
                       <$> Snippet.lines_ other)))
            = Indent.Indenting (Block.indent_ b) +:+ Block.header_ b
              +:+ concat_strings (Snippet.Out <$> Block.snippets_ b)
              +:+ concat_strings
                    ((λ line,
                        Indent.Indenting
                          (Indent.new_default (size_add (block_level b) 1)
                             (Indent.size_ (Block.indent_ b)))
                        +:+ Indent.Indenting (Snippet.indent_ other) +:+ line +:+ nl)
                       <$> Snippet.lines_ other)
              +:+ Indent.Indenting (Block.indent_ b) +:+ Block.footer_ b) as Hout.
    { rewrite Block_Out_concat. simpl.
      rewrite fmap_app, concat_strings_app. simpl.
      rewrite Snippet_Out_concat. simpl. rewrite <- list_fmap_compose.
      rewrite string_app_nil_r, !string_app_assoc. do 3 f_equal.
      apply (f_equal (λ l, concat_strings l +:+ _)).
      apply list_fmap_ext. intros _ line _. simpl. by rewrite string_app_assoc. }
    split; [exact Hout|].
    intros Hempty. rewrite Hout, Hempty, Block_Out_concat. simpl.
    by rewrite string_app_nil_l.
  - apply Indenting_no_newline.
Qed.

Lemma absorbed_snippet_keeps_indentation_witness :
  ∃ b', Block.Add_any (Block.code_block (Indent.new_default 0 2))
          (Snippet.Add (Snippet.system_include (Indent.new_default 1 2)) "vector")
        = Some b'
        ∧ Block.Out b'
          = "{" +:+ nl +:+ "    #include <vector>" +:+ nl +:+ "}" +:+ nl.
Proof.
  destruct (proj1 (proj2 (absorbed_snippet_keeps_indentation
              (Snippet.line (Indent.new_default 0 2))
              (Snippet.Add (Snippet.system_include (Indent.new_default 1 2)) "vector")
              eq_refl ltac:(repeat constructor)))
              (Block.code_block (Indent.new_default 0 2)))
    as (b' & Hadd & _ & Hout & _).
  exists b'. split; [exact Hadd | exact Hout].
Defined.

(** ** Tags, and the shape of the wrapping snippets *)

Section plain_children.

Lemma plain_line_with_lines indent lines :
  plain_line (Snippet.with_lines (Snippet.line indent) lines).
Proof. done. Qed.

Lemma plain_line_increment sn k :
  plain_line sn → plain_line (Snippet.IncrementIndent sn k).
Proof. done. Qed.






End plain_children.



(** ** The bucket map of a class *)

Section class_keys.

Lemma Out_section_is_Some (c : Class.t) a label block :
  is_Some (Class.Out_section c a label block) → is_Some (Class.snippets_ c !! a).
Proof.
  unfold Class.Out_section. destruct (Class.snippets_ c !! a); [by eexists|].
  simpl. by intros [? ?].
Qed.

Lemma Class_Out_is_Some (c : Class.t) :
  is_Some (Class.Out c) → Class.has_all_keys c.
Proof.
  unfold Class.Out, Class.has_all_keys. intros [text Hout].
  destruct (Class.Out_section c kPublic _ _) as [b1|] eqn:H1; simpl in Hout; [|done].
  destruct (Class.Out_section c kProtected _ _) as [b2|] eqn:H2; simpl in Hout; [|done].
  destruct (Class.Out_section c kPrivate _ _) as [b3|] eqn:H3; simpl in Hout; [|done].
  split_and!; eapply Out_section_is_Some; by eexists.
Qed.

End class_keys.

(** X13. [Class::Out] returns exactly when the three access specifiers
    are keys of the bucket map: with one of them missing, an [.at()] lookup
    throws. [Add] leaves the key it writes to present, through [operator[]],
    and removes none; [IncrementIndent] keeps the set of keys as it is. *)
Theorem Class_Out_returns_iff_all_keys (c : Class.t) :
  (is_Some (Class.Out c) ↔ Class.has_all_keys c)
  ∧ (∀ line a a',
       is_Some (Class.snippets_ (Class.Add c line a) !! a')
       ↔ a = a' ∨ is_Some (Class.snippets_ c !! a'))
  ∧ (∀ k a,
       is_Some (Class.snippets_ (Class.IncrementIndent c k) !! a)
       ↔ is_Some (Class.snippets_ c !! a)).
Proof.
  split_and!.
  - split; [apply Class_Out_is_Some|].
    intros Hkeys. rewrite (Class_Out_present c Hkeys). by eexists.
  - intros line a a'. unfold Class.Add. simpl. apply lookup_insert_is_Some'.
  - intros k a. simpl. by rewrite lookup_fmap, fmap_is_Some.
Qed.

(** ** Absorbing a node into a block *)

Section absorb_into_block.

Lemma Block_Add_any_Out {T} `{HasOut T} (b : Block.t) (any : T) text :
  out any = Some text →
  ∃ b', Block.Add_any b any = Some b'
        ∧ Block.Out b'
          = Indent.Indenting (Block.indent_ b) +:+ Block.header_ b
            +:+ concat_strings (Snippet.Out <$> Block.snippets_ b)
            +:+ concat_strings
                  ((λ line,
                      Indent.Indenting
                        (Indent.new_default (size_add (block_level b) 1)
                           (Indent.size_ (Block.indent_ b)))
                      +:+ line +:+ nl) <$> split_lines text)
            +:+ Indent.Indenting (Block.indent_ b) +:+ Block.footer_ b.
Proof.
  intros Hout. unfold Block.Add_any.
  rewrite (Snippet_Add_any_lines _ any text Hout). simpl.
  eexists. split; [reflexivity|].
  rewrite Block_Out_concat. simpl.
  rewrite fmap_app, concat_strings_app. simpl.
  rewrite Snippet_Out_concat. simpl.
  by rewrite string_app_nil_r, !string_app_assoc.
Qed.

Lemma Indenting_size_zero level c :
  Indent.Indenting (Indent.new level 0 c) = "".
Proof.
  unfold Indent.Indenting. simpl.
  induction (N.to_nat level) as [|n IH]; [done|]. simpl. by rewrite string_app_nil_l.
Qed.

End absorb_into_block.

(** X14. [Block::Add(node)] puts every line of the render of the node,
    behind the child indent of the block, between the earlier children and
    the footer. With unit width 0 the child indent is empty, and a render
    made of complete lines is then embedded as it is. *)
Theorem Block_Add_any_render {T} `{HasOut T} (b : Block.t) (any : T) (text : string) :
  out any = Some text →
  ∃ b', Block.Add_any b any = Some b'
        ∧ Block.Out b'
          = Indent.Indenting (Block.indent_ b) +:+ Block.header_ b
            +:+ concat_strings (Snippet.Out <$> Block.snippets_ b)
            +:+ concat_strings
                  ((λ line,
                      Indent.Indenting
                        (Indent.new_default (size_add (block_level b) 1)
                           (Indent.size_ (Block.indent_ b)))
                      +:+ line +:+ nl) <$> split_lines text)
            +:+ Indent.Indenting (Block.indent_ b) +:+ Block.footer_ b
        ∧ (Indent.size_ (Block.indent_ b) = 0%N → newline_terminated text = true →
           Block.Out b'
           = Indent.Indenting (Block.indent_ b) +:+ Block.header_ b
             +:+ concat_strings (Snippet.Out <$> Block.snippets_ b)
             +:+ text
             +:+ Indent.Indenting (Block.indent_ b) +:+ Block.footer_ b).
Proof.
  intros Hout. destruct (Block_Add_any_Out b any text Hout) as (b' & Hadd & Hrender).
  exists b'. split; [exact Hadd|]. split; [exact Hrender|].
  intros Hsize Hterm. rewrite Hrender, Hsize.
  unfold Indent.new_default. rewrite Indenting_size_zero.
  rewrite (list_fmap_ext _ (λ line, line +:+ nl) (split_lines text))
    by (by intros _ line _).
  rewrite join_split_lines. unfold terminate_text. by rewrite Hterm.
Qed.

Lemma Block_Add_any_render_witness :
  ∃ b', Block.Add_any (Block.namespace "N" (Indent.new_default 0 0))
          (Block.Add (Block.code_block (Indent.new_default 0 2)) "x;") = Some b'
        ∧ Block.Out b'
          = "namespace N {" +:+ nl
            +:+ Block.Out (Block.Add (Block.code_block (Indent.new_default 0 2)) "x;")
            +:+ "}" +:+ nl.
Proof.
  destruct (Block_Add_any_render (Block.namespace "N" (Indent.new_default 0 0))
              (Block.Add (Block.code_block (Indent.new_default 0 2)) "x;")
              _ eq_refl) as (b' & Hadd & _ & Hout).
  exists b'. split; [exact Hadd|]. exact (Hout eq_refl eq_refl).
Defined.

(** X15. Embedding is re-indenting: when a snippet with the default space
    fill and the unit width of the block, whose lines hold no line feed,
    is added to a block as a node, its lines render in the block exactly
    as the snippet itself renders after [IncrementIndent(level + 1)], for
    the level of the block, provided the level of the snippet does not wrap
    around. *)
Theorem absorbed_snippet_renders_as_reindented
    (b : Block.t) (level : N) (H F : string) (ty : NodeType) (lines : list string) :
  Forall (λ line, no_newline line = true) lines →
  (level + size_add (block_level b) 1 < size_modulus)%N →
  ∃ b',
    Block.Add_any b
      (Snippet.mk (Indent.new_default level (Indent.size_ (Block.indent_ b)))
         H F ty lines) = Some b'
    ∧ Block.Out b'
      = Indent.Indenting (Block.indent_ b) +:+ Block.header_ b
        +:+ concat_strings (Snippet.Out <$> Block.snippets_ b)
        +:+ Snippet.Out
              (Snippet.IncrementIndent
                 (Snippet.mk (Indent.new_default level (Indent.size_ (Block.indent_ b)))
                    H F ty lines)
                 (size_add (block_level b) 1))
        +:+ Indent.Indenting (Block.indent_ b) +:+ Block.footer_ b.
Proof.
  intros Hlines Hlt.
  destruct (Block_Add_any_Out b
              (Snippet.mk (Indent.new_default level (Indent.size_ (Block.indent_ b)))
                 H F ty lines) _ eq_refl) as (b' & Hadd & Hrender).
  exists b'. split; [exact Hadd|]. rewrite Hrender.
  rewrite split_lines_Snippet_Out; simpl; [|by apply Indenting_no_newline|done].
  rewrite Snippet_Out_IncrementIndent by done. simpl.
  rewrite <- list_fmap_compose. do 3 f_equal.
  apply (f_equal (λ l, concat_strings l +:+ _)).
  apply list_fmap_ext. intros _ line _. simpl. by rewrite !string_app_assoc.
Qed.

Lemma absorbed_snippet_renders_as_reindented_witness :
  ∃ b',
    Block.Add_any (Block.code_block (Indent.new_default 1 2))
      (Snippet.mk (Indent.new_default 1 2) "" "" kLine ["a"; "b"]) = Some b'
    ∧ Block.Out b'
      = "  {" +:+ nl
        +:+ Snippet.Out (Snippet.mk (Indent.new_default 3 2) "" "" kLine ["a"; "b"])
        +:+ "  }" +:+ nl.
Proof.
  destruct (absorbed_snippet_renders_as_reindented
              (Block.code_block (Indent.new_default 1 2)) 1%N "" "" kLine ["a"; "b"]
              ltac:(repeat constructor) eq_refl) as (b' & Hadd & Hout).
  exists b'. split; [exact Hadd | exact Hout].
Defined.

(** * The wrapping snippet of [Add], and absorbed nodes as snapshots *)

Section wrapping_snippet.

Lemma Block_Add_mk (b : Block.t) line :
  Block.Add b line
  = Block.mk (Block.indent_ b) (Block.header_ b) (Block.footer_ b) (Block.type_ b)
      (Block.snippets_ b
       ++ [Snippet.mk
             (Indent.new_default (size_add (block_level b) 1)
                (Indent.size_ (Block.indent_ b)))
             "" "" kLine [line]]).
Proof.
  unfold Block.Add, Block.emplace_back, Block.snippet_copy.
  by rewrite Snippet_Add_line_plain.
Qed.

Lemma Block_Add_any_mk {T} `{HasOut T} (b : Block.t) (any : T) text :
  out any = Some text →
  Block.Add_any b any
  = Some (Block.mk (Block.indent_ b) (Block.header_ b) (Block.footer_ b)
            (Block.type_ b)
            (Block.snippets_ b
             ++ [Snippet.mk
                   (Indent.new_default (size_add (block_level b) 1)
                      (Indent.size_ (Block.indent_ b)))
                   "" "" kLine (split_lines text)])).
Proof.
  intros Hout. unfold Block.Add_any.
  by rewrite (Snippet_Add_any_lines _ any text Hout).
Qed.

Lemma Block_Out_snoc indent H F ty (snippets : list Snippet.t) sn :
  Block.Out (Block.mk indent H F ty (snippets ++ [sn]))
  = Indent.Indenting indent +:+ H
    +:+ concat_strings (Snippet.Out <$> snippets)
    +:+ Snippet.Out sn
    +:+ Indent.Indenting indent +:+ F.
Proof.
  rewrite Block_Out_concat. simpl. rewrite fmap_app, concat_strings_app. simpl.
  by rewrite string_app_nil_r, !string_app_assoc.
Qed.

Lemma Class_bucket_Add (c : Class.t) line a a' :
  Class.bucket (Class.Add c line a) a'
  = if decide (a = a')
    then Class.bucket c a
         ++ [Snippet.mk
               (Indent.new_default (size_add (class_level c) 1)
                  (Indent.size_ (Class.indent_ c)))
               "" "" kLine [line]]
    else Class.bucket c a'.
Proof.
  unfold Class.Add. rewrite bucket_emplace_back.
  unfold Class.snippet_copy. by rewrite Snippet_Add_line_plain.
Qed.

Lemma Class_Add_any_emplace {T} `{HasOut T} (c : Class.t) (any : T) a text :
  out any = Some text →
  Class.Add_any c any a
  = Some (Class.emplace_back c a
            (Snippet.mk
               (Indent.new_default (size_add (class_level c) 1)
                  (Indent.size_ (Class.indent_ c)))
               "" "" kLine (split_lines text))).
Proof.
  intros Hout. unfold Class.Add_any.
  by rewrite (Snippet_Add_any_lines _ any text Hout).
Qed.

(** The section of a bucket that has just received a snippet. *)
Lemma access_section_snoc (c c' : Class.t) a label sn :
  Class.indent_ c' = Class.indent_ c →
  Class.bucket c' a = Class.bucket c a ++ [sn] →
  access_section c' a label
  = Indent.Indenting (Class.indent_ c) +:+ label
    +:+ concat_strings (Snippet.Out <$> Class.bucket c a)
    +:+ Snippet.Out sn.
Proof.
  intros Hi Hb. unfold access_section. rewrite Hb, Hi.
  destruct (Class.bucket c a) as [|x l]; simpl.
  - by rewrite string_app_nil_r.
  - rewrite fmap_app, concat_strings_app. simpl.
    by rewrite string_app_nil_r, !string_app_assoc.
Qed.

Lemma access_section_same (c c' : Class.t) a label :
  Class.indent_ c' = Class.indent_ c →
  Class.bucket c' a = Class.bucket c a →
  access_section c' a label = access_section c a label.
Proof. intros Hi Hb. unfold access_section. by rewrite Hb, Hi. Qed.

Lemma Snippet_Out_plain indent (lines : list string) :
  Snippet.Out (Snippet.mk indent "" "" kLine lines)
  = concat_strings ((λ line, Indent.Indenting indent +:+ line +:+ nl) <$> lines).
Proof. by rewrite Snippet_Out_concat. Qed.

End wrapping_snippet.

Section space_children.

Lemma block_run_space_children :
  ∀ level size (c : ascii) H F ty calls (b : Block.t),
     Calls.block_run calls (Block.mk (Indent.new level size c) H F ty []) = Some b →
     Indent.character_ (Block.indent_ b) = c
     ∧ Indent.size_ (Block.indent_ b) = size
     ∧ all_chars c (Indent.Indenting (Block.indent_ b)) = true
     ∧ Forall (λ sn,
         Snippet.indent_ sn = Indent.new_default (size_add (block_level b) 1) size
         ∧ all_chars " " (Indent.Indenting (Snippet.indent_ sn)) = true
         ∧ Snippet.Out sn
           = concat_strings
               ((λ line,
                   Indent.Indenting (Indent.new_default (size_add (block_level b) 1) size)
                   +:+ line +:+ nl) <$> Snippet.lines_ sn))
         (Block.snippets_ b).
Proof.
  intros level size c H F ty calls b Hrun.
  destruct (block_run_frame _ _ _ Hrun) as (_ & _ & _ & Hshape).
  pose proof (same_indent_shape_cached _ _ Hshape (indent_cached_new level size c))
    as Hcached.
  destruct Hshape as (Hsize & Hchar & _). simpl in Hsize, Hchar.
  split_and!; [done..| |].
  + pose proof (Indenting_all_chars _ Hcached) as Hall. by rewrite Hchar in Hall.
  + assert (block_children_ok b) as Hb.
    { eapply block_run_children; [exact Hrun|]. by apply block_children_fresh. }
    eapply Forall_impl; [|exact Hb]. intros sn Hsn.
    unfold child_of in Hsn. rewrite Hsize in Hsn. fold (block_level b) in Hsn.
    split_and!; [done| |].
    * rewrite Hsn. apply (Indenting_all_chars (Indent.new_default _ _)).
      apply indent_cached_new.
    * by rewrite Snippet_Out_concat, Hsn.
Qed.

Lemma class_run_space_children :
  ∀ level size (c : ascii) name calls (cl : Class.t),
       Calls.class_run calls (Class.new name (Indent.new level size c)) = Some cl →
       Indent.character_ (Class.indent_ cl) = c
       ∧ Indent.size_ (Class.indent_ cl) = size
       ∧ all_chars c (Indent.Indenting (Class.indent_ cl)) = true
       ∧ ∀ a, Forall (λ sn,
           Snippet.indent_ sn = Indent.new_default (size_add (class_level cl) 1) size
           ∧ all_chars " " (Indent.Indenting (Snippet.indent_ sn)) = true
           ∧ Snippet.Out sn
             = concat_strings
                 ((λ line,
                     Indent.Indenting (Indent.new_default (size_add (class_level cl) 1) size)
                     +:+ line +:+ nl) <$> Snippet.lines_ sn))
           (Class.bucket cl a).
Proof.
  intros level size c name calls cl Hrun.
  destruct (class_run_frame _ _ _ Hrun) as (_ & _ & _ & _ & Hshape).
  pose proof (same_indent_shape_cached _ _ Hshape (indent_cached_new level size c))
    as Hcached.
  destruct Hshape as (Hsize & Hchar & _). simpl in Hsize, Hchar.
  split_and!; [done..| |].
  + pose proof (Indenting_all_chars _ Hcached) as Hall. by rewrite Hchar in Hall.
  + intros a.
    pose proof (class_run_children _ _ _ Hrun (class_children_new _ _) a) as Hc.
    eapply Forall_impl; [|exact Hc]. intros sn Hsn.
    unfold child_of in Hsn. rewrite Hsize in Hsn. fold (class_level cl) in Hsn.
    split_and!; [done| |].
    * rewrite Hsn. apply (Indenting_all_chars (Indent.new_default _ _)).
      apply indent_cached_new.
    * by rewrite Snippet_Out_concat, Hsn.
Qed.

End space_children.

(** C10. The wrapping snippet every [Add] of a [Block] or of a [Class]
    creates and stores has the [Indent] [Indent(level + 1, size)], for the
    level and the unit width of the parent, with the default space as fill
    character, whatever the fill character of the parent is; its prefix is
    made of spaces only, and the parent renders each line of it behind that
    prefix. [Add] of a line stores exactly this snippet holding the line, at
    the end of the children of the block or of the bucket of the class, and
    [Add] of a node the same snippet holding the lines of the render of the
    node. After any sequence of calls on a parent constructed with fill
    character [c], the parent still has [c] and its unit width, its own
    prefix is made of [c], and every child has the space-filled [Indent]
    one level deeper. *)
Theorem children_indent_with_spaces :
  (∀ level size (lines : list string),
     Indent.character_ (Indent.new_default level size) = " "%char
     ∧ all_chars " " (Indent.Indenting (Indent.new_default level size)) = true
     ∧ String.length (Indent.Indenting (Indent.new_default level size))
       = N.to_nat (level * size)
     ∧ Snippet.Out (Snippet.mk (Indent.new_default level size) "" "" kLine lines)
       = concat_strings
           ((λ line, Indent.Indenting (Indent.new_default level size) +:+ line +:+ nl)
              <$> lines))
  ∧ (∀ (b : Block.t) line,
       Block.Add b line
       = Block.mk (Block.indent_ b) (Block.header_ b) (Block.footer_ b) (Block.type_ b)
           (Block.snippets_ b ++ [Snippet.mk
             (Indent.new_default (size_add (block_level b) 1)
                (Indent.size_ (Block.indent_ b)))
             "" "" kLine [line]])
       ∧ Block.Out (Block.Add b line)
         = Indent.Indenting (Block.indent_ b) +:+ Block.header_ b
           +:+ concat_strings (Snippet.Out <$> Block.snippets_ b)
           +:+ Indent.Indenting
             (Indent.new_default (size_add (block_level b) 1)
                (Indent.size_ (Block.indent_ b)))
           +:+ line +:+ nl
           +:+ Indent.Indenting (Block.indent_ b) +:+ Block.footer_ b)
  ∧ (∀ (T : Type) (HT : HasOut T) (b : Block.t) (any : T) text,
       out any = Some text →
       Block.Add_any b any
       = Some (Block.mk (Block.indent_ b) (Block.header_ b) (Block.footer_ b)
                 (Block.type_ b)
                 (Block.snippets_ b ++ [Snippet.mk
             (Indent.new_default (size_add (block_level b) 1)
                (Indent.size_ (Block.indent_ b)))
             "" "" kLine (split_lines text)]))
       ∧ Block.Out <$> Block.Add_any b any
         = Some (Indent.Indenting (Block.indent_ b) +:+ Block.header_ b
                 +:+ concat_strings (Snippet.Out <$> Block.snippets_ b)
                 +:+ concat_strings
                       ((λ line,
                           Indent.Indenting
             (Indent.new_default (size_add (block_level b) 1)
                (Indent.size_ (Block.indent_ b)))
                           +:+ line +:+ nl) <$> split_lines text)
                 +:+ Indent.Indenting (Block.indent_ b) +:+ Block.footer_ b))
  ∧ (∀ (c : Class.t) line a,
       (∀ a',
          Class.bucket (Class.Add c line a) a'
          = if decide (a = a')
            then Class.bucket c a ++ [Snippet.mk
             (Indent.new_default (size_add (class_level c) 1)
                (Indent.size_ (Class.indent_ c)))
             "" "" kLine [line]]
            else Class.bucket c a')
       ∧ (∀ label,
            access_section (Class.Add c line a) a label
            = Indent.Indenting (Class.indent_ c) +:+ label
              +:+ concat_strings (Snippet.Out <$> Class.bucket c a)
              +:+ Indent.Indenting
             (Indent.new_default (size_add (class_level c) 1)
                (Indent.size_ (Class.indent_ c)))
              +:+ line +:+ nl)
       ∧ (∀ a' label, a ≠ a' →
            access_section (Class.Add c line a) a' label = access_section c a' label)
       ∧ (Class.has_all_keys c →
          Class.Out (Class.Add c line a)
          = Some (Indent.Indenting (Class.indent_ c) +:+ "class " +:+ Class.name_ c
                  +:+ Class.header_ c
                  +:+ access_section (Class.Add c line a) kPublic (" public:" +:+ nl)
                  +:+ access_section (Class.Add c line a) kProtected (" protected:" +:+ nl)
                  +:+ access_section (Class.Add c line a) kPrivate (" private:" +:+ nl)
                  +:+ Indent.Indenting (Class.indent_ c) +:+ Class.footer_ c)))
  ∧ (∀ (T : Type) (HT : HasOut T) (c : Class.t) (any : T) a text,
       out any = Some text →
       ∃ c', Class.Add_any c any a = Some c'
             ∧ Class.indent_ c' = Class.indent_ c
             ∧ (∀ a',
                  Class.bucket c' a'
                  = if decide (a = a')
                    then Class.bucket c a ++ [Snippet.mk
             (Indent.new_default (size_add (class_level c) 1)
                (Indent.size_ (Class.indent_ c)))
             "" "" kLine (split_lines text)]
                    else Class.bucket c a')
             ∧ (∀ label,
                  access_section c' a label
                  = Indent.Indenting (Class.indent_ c) +:+ label
                    +:+ concat_strings (Snippet.Out <$> Class.bucket c a)
                    +:+ concat_strings
                          ((λ line,
                              Indent.Indenting
             (Indent.new_default (size_add (class_level c) 1)
                (Indent.size_ (Class.indent_ c)))
                              +:+ line +:+ nl) <$> split_lines text)))
  ∧ (∀ level size (c : ascii) H F ty calls (b : Block.t),
     Calls.block_run calls (Block.mk (Indent.new level size c) H F ty []) = Some b →
     Indent.character_ (Block.indent_ b) = c
     ∧ Indent.size_ (Block.indent_ b) = size
     ∧ all_chars c (Indent.Indenting (Block.indent_ b)) = true
     ∧ Forall (λ sn,
         Snippet.indent_ sn = Indent.new_default (size_add (block_level b) 1) size
         ∧ all_chars " " (Indent.Indenting (Snippet.indent_ sn)) = true
         ∧ Snippet.Out sn
           = concat_strings
               ((λ line,
                   Indent.Indenting (Indent.new_default (size_add (block_level b) 1) size)
                   +:+ line +:+ nl) <$> Snippet.lines_ sn))
         (Block.snippets_ b))
  ∧ (∀ level size (c : ascii) name calls (cl : Class.t),
       Calls.class_run calls (Class.new name (Indent.new level size c)) = Some cl →
       Indent.character_ (Class.indent_ cl) = c
       ∧ Indent.size_ (Class.indent_ cl) = size
       ∧ all_chars c (Indent.Indenting (Class.indent_ cl)) = true
       ∧ ∀ a, Forall (λ sn,
           Snippet.indent_ sn = Indent.new_default (size_add (class_level cl) 1) size
           ∧ all_chars " " (Indent.Indenting (Snippet.indent_ sn)) = true
           ∧ Snippet.Out sn
             = concat_strings
                 ((λ line,
                     Indent.Indenting (Indent.new_default (size_add (class_level cl) 1) size)
                     +:+ line +:+ nl) <$> Snippet.lines_ sn))
           (Class.bucket cl a)).
Proof.
  split_and!.
  - intros level size lines. split_and!.
    + done.
    + apply (Indenting_all_chars (Indent.new_default level size)), indent_cached_new.
    + apply (Indenting_length (Indent.new_default level size)), indent_cached_new.
    + apply Snippet_Out_plain.
  - intros b line. rewrite Block_Add_mk. split; [done|].
    rewrite Block_Out_snoc, Snippet_Out_plain. simpl.
    by rewrite ?string_app_nil_r, ?string_app_assoc.
  - intros T HT b any text Hout. rewrite (Block_Add_any_mk b any text Hout).
    split; [done|]. simpl. by rewrite Block_Out_snoc, Snippet_Out_plain.
  - intros c line a. split_and!.
    + intros a'. apply Class_bucket_Add.
    + intros label.
      rewrite (access_section_snoc c (Class.Add c line a) a label _ eq_refl)
        by (by rewrite Class_bucket_Add, decide_True).
      rewrite Snippet_Out_plain. simpl. by rewrite ?string_app_nil_r, ?string_app_assoc.
    + intros a' label Hne. apply access_section_same; [done|].
      by rewrite Class_bucket_Add, decide_False.
    + intros Hkeys.
      by rewrite (Class_Out_present (Class.Add c line a))
        by (by apply has_all_keys_emplace_back).
  - intros T HT c any a text Hout. eexists.
    split; [by apply Class_Add_any_emplace|]. split; [done|]. split.
    + intros a'. apply bucket_emplace_back.
    + intros label.
      erewrite (access_section_snoc c);
        [|done|by rewrite bucket_emplace_back, decide_True].
      by rewrite Snippet_Out_plain.
  - apply block_run_space_children.
  - apply class_run_space_children.
Qed.

Lemma children_indent_with_spaces_witness :
  Block.Out (Block.Add (Block.code_block (Indent.new 1 2 "-")) "x;")
  = "--{" +:+ nl +:+ "    x;" +:+ nl +:+ "--}" +:+ nl
  ∧ Block.Out <$>
      Block.Add_any (Block.code_block (Indent.new 1 2 "-"))
        (Snippet.Add (Snippet.line (Indent.new 0 2 "-")) "y")
    = Some ("--{" +:+ nl +:+ "    y" +:+ nl +:+ "--}" +:+ nl)
  ∧ Class.Out (Class.Add (Class.new "Foo" (Indent.new 1 2 "-")) "x;" kPublic)
    = Some ("--class Foo {" +:+ nl +:+ "-- public:" +:+ nl +:+ "    x;" +:+ nl
            +:+ "--};" +:+ nl)
  ∧ access_section (Class.Add (Class.new "Foo" (Indent.new 1 2 "-")) "x;" kPublic)
      kPrivate (" private:" +:+ nl) = ""
  ∧ (∃ c', Class.Add_any (Class.new "Foo" (Indent.new 1 2 "-"))
             (Snippet.Add (Snippet.line (Indent.new 0 2 "-")) "y") kPrivate = Some c'
           ∧ Class.bucket c' kPrivate
             = [Snippet.mk (Indent.new_default 2 2) "" "" kLine ["y"]])
  ∧ (∃ b, Calls.block_run [Calls.BAdd "x;"]
            (Block.mk (Indent.new 1 2 "-") ("{" +:+ nl) ("}" +:+ nl) kCodeBlock []) = Some b
          ∧ Indent.character_ (Block.indent_ b) = "-"%char
          ∧ Forall (λ sn, all_chars " " (Indent.Indenting (Snippet.indent_ sn)) = true)
                   (Block.snippets_ b))
  ∧ (∃ c, Calls.class_run [Calls.CAdd "x;" kPublic]
            (Class.new "Foo" (Indent.new 1 2 "-")) = Some c
          ∧ Indent.character_ (Class.indent_ c) = "-"%char
          ∧ Forall (λ sn, all_chars " " (Indent.Indenting (Snippet.indent_ sn)) = true)
                   (Class.bucket c kPublic)).
Proof.
  destruct children_indent_with_spaces
    as (_ & HAdd & HAddAny & HCAdd & HCAddAny & Hbrun & Hcrun).
  split_and!.
  - exact (proj2 (HAdd (Block.code_block (Indent.new 1 2 "-")) "x;")).
  - exact (proj2 (HAddAny Snippet.t _ (Block.code_block (Indent.new 1 2 "-"))
                    (Snippet.Add (Snippet.line (Indent.new 0 2 "-")) "y") _ eq_refl)).
  - refine (proj2 (proj2 (proj2 (HCAdd (Class.new "Foo" (Indent.new 1 2 "-"))
                                   "x;" kPublic))) _).
    repeat split; by eexists.
  - refine (proj1 (proj2 (proj2 (HCAdd (Class.new "Foo" (Indent.new 1 2 "-"))
                                   "x;" kPublic))) kPrivate (" private:" +:+ nl) _).
    discriminate.
  - destruct (HCAddAny Snippet.t _ (Class.new "Foo" (Indent.new 1 2 "-"))
                (Snippet.Add (Snippet.line (Indent.new 0 2 "-")) "y") kPrivate _ eq_refl)
      as (c' & Hadd & _ & Hbucket & _).
    exists c'. split; [exact Hadd|]. exact (Hbucket kPrivate).
  - eexists. split; [reflexivity|].
    destruct (Hbrun 1%N 2%N "-"%char ("{" +:+ nl) ("}" +:+ nl)
                kCodeBlock [Calls.BAdd "x;"] _ eq_refl) as (Hc & _ & _ & Hsn).
    split; [exact Hc|].
    eapply Forall_impl; [|exact Hsn]. by intros sn (_ & Hall & _).
  - eexists. split; [reflexivity|].
    destruct (Hcrun 1%N 2%N "-"%char "Foo"
                [Calls.CAdd "x;" kPublic] _ eq_refl) as (Hc & _ & _ & Hsn).
    split; [exact Hc|].
    eapply Forall_impl; [|exact (Hsn kPublic)]. by intros sn (_ & Hall & _).
Defined.

Section snapshot.

Lemma Node_Add_any_text (p0 ch : Node) a p1 :
  Node.Add_any p0 ch a = Some p1 → ∃ text, Node.Out ch = Some text.
Proof.
  destruct (Node.Out ch) as [text|] eqn:Hout; [by eexists|].
  destruct p0 as [s|b|c]; simpl;
    unfold Block.Add_any, Class.Add_any, Snippet.Add_any, out, Node.has_out;
    rewrite Hout; simpl; done.
Qed.

Lemma Node_Add_any_Snippet (s : Snippet.t) (ch : Node) a text p1 :
  Node.Out ch = Some text →
  Node.Add_any (NSnippet s) ch a = Some p1 →
  p1 = NSnippet
         (Snippet.mk (Snippet.indent_ s) (Snippet.header_ s) (Snippet.footer_ s)
            (Snippet.type_ s) (Snippet.lines_ s ++ split_lines text)).
Proof.
  intros Hout. simpl.
  rewrite (Snippet_Add_any_lines (H := Node.has_out) s ch text Hout). simpl.
  by intros [= <-].
Qed.

Lemma Node_Add_any_Block (b : Block.t) (ch : Node) a text p1 :
  Node.Out ch = Some text →
  Node.Add_any (NBlock b) ch a = Some p1 →
  p1 = NBlock
         (Block.mk (Block.indent_ b) (Block.header_ b) (Block.footer_ b)
            (Block.type_ b)
            (Block.snippets_ b
             ++ [Snippet.mk
                   (Indent.new_default (size_add (block_level b) 1)
                      (Indent.size_ (Block.indent_ b)))
                   "" "" kLine (split_lines text)])).
Proof.
  intros Hout. simpl.
  rewrite (Block_Add_any_mk (H := Node.has_out) b ch text Hout). simpl.
  by intros [= <-].
Qed.

Lemma Node_Add_any_Class (c : Class.t) (ch : Node) a text p1 :
  Node.Out ch = Some text →
  Node.Add_any (NClass c) ch a = Some p1 →
  p1 = NClass
         (Class.emplace_back c a
            (Snippet.mk
               (Indent.new_default (size_add (class_level c) 1)
                  (Indent.size_ (Class.indent_ c)))
               "" "" kLine (split_lines text))).
Proof.
  intros Hout. simpl.
  rewrite (Class_Add_any_emplace (H := Node.has_out) c ch a text Hout). simpl.
  by intros [= <-].
Qed.

End snapshot.

(** C7. Once the statement [parent.Add(child)] has run, the parent holds
    the render the child had at that moment, as lines of text: a block has
    one more wrapping snippet holding the lines of that render, a class
    has it at the end of the bucket of the access specifier, a snippet has
    these lines after its own; the render of the parent shows every one of
    these lines behind the child indent, at the place of the new snippet.
    No later statement called on another object than the parent (an
    [IncrementIndent] or an [Add] on the child, for instance) changes the
    parent or its render: the parent goes on showing the text the child
    had when it was added. *)
Theorem absorbed_node_is_snapshot
    (σ σ1 σ2 : gmap string Node) (parent child : string) (a : AccessSpecifier)
    (prog : list Program.stmt) :
  Program.exec (Program.AddNode parent child a) σ = Some σ1 →
  Forall (λ st, Program.target st ≠ parent) prog →
  Program.run prog σ1 = Some σ2 →
  ∃ p0 ch text p1,
    σ !! parent = Some p0 ∧ σ !! child = Some ch
    ∧ Node.Out ch = Some text
    ∧ Node.Add_any p0 ch a = Some p1
    ∧ σ1 !! parent = Some p1 ∧ σ2 !! parent = Some p1
    ∧ Program.render σ2 parent = Program.render σ1 parent
    ∧ (∀ b : Block.t, p0 = NBlock b →
         p1 = NBlock
                (Block.mk (Block.indent_ b) (Block.header_ b) (Block.footer_ b)
                   (Block.type_ b)
                   (Block.snippets_ b
                    ++ [Snippet.mk
                          (Indent.new_default (size_add (block_level b) 1)
                             (Indent.size_ (Block.indent_ b)))
                          "" "" kLine (split_lines text)]))
         ∧ Program.render σ2 parent
           = Some (Indent.Indenting (Block.indent_ b) +:+ Block.header_ b
                   +:+ concat_strings (Snippet.Out <$> Block.snippets_ b)
                   +:+ concat_strings
                         ((λ line,
                             Indent.Indenting
                               (Indent.new_default (size_add (block_level b) 1)
                                  (Indent.size_ (Block.indent_ b)))
                             +:+ line +:+ nl) <$> split_lines text)
                   +:+ Indent.Indenting (Block.indent_ b) +:+ Block.footer_ b))
    ∧ (∀ c : Class.t, p0 = NClass c →
         ∃ c1 : Class.t,
           p1 = NClass c1
           ∧ Class.indent_ c1 = Class.indent_ c ∧ Class.name_ c1 = Class.name_ c
           ∧ Class.header_ c1 = Class.header_ c ∧ Class.footer_ c1 = Class.footer_ c
           ∧ (∀ a',
                Class.bucket c1 a'
                = if decide (a = a')
                  then Class.bucket c a
                       ++ [Snippet.mk
                             (Indent.new_default (size_add (class_level c) 1)
                                (Indent.size_ (Class.indent_ c)))
                             "" "" kLine (split_lines text)]
                  else Class.bucket c a')
           ∧ (∀ label,
                access_section c1 a label
                = Indent.Indenting (Class.indent_ c) +:+ label
                  +:+ concat_strings (Snippet.Out <$> Class.bucket c a)
                  +:+ concat_strings
                        ((λ line,
                            Indent.Indenting
                              (Indent.new_default (size_add (class_level c) 1)
                                 (Indent.size_ (Class.indent_ c)))
                            +:+ line +:+ nl) <$> split_lines text))
           ∧ (∀ a' label, a ≠ a' →
                access_section c1 a' label = access_section c a' label)
           ∧ (Class.has_all_keys c →
              Program.render σ2 parent
              = Some (Indent.Indenting (Class.indent_ c) +:+ "class "
                      +:+ Class.name_ c +:+ Class.header_ c
                      +:+ access_section c1 kPublic (" public:" +:+ nl)
                      +:+ access_section c1 kProtected (" protected:" +:+ nl)
                      +:+ access_section c1 kPrivate (" private:" +:+ nl)
                      +:+ Indent.Indenting (Class.indent_ c) +:+ Class.footer_ c)))
    ∧ (∀ s : Snippet.t, p0 = NSnippet s →
         p1 = NSnippet
                (Snippet.mk (Snippet.indent_ s) (Snippet.header_ s)
                   (Snippet.footer_ s) (Snippet.type_ s)
                   (Snippet.lines_ s ++ split_lines text))
         ∧ Program.render σ2 parent
           = Some (Snippet.Out s
                   +:+ concat_strings
                         ((λ line,
                             Indent.Indenting (Snippet.indent_ s) +:+ line +:+ nl)
                            <$> split_lines text))).
Proof.
  intros Hadd Hprog Hrun.
  pose proof (run_other _ _ _ parent Hrun Hprog) as Hsame.
  destruct (exec_AddNode_inv _ _ _ _ _ Hadd) as (p0 & ch & p1 & Hp & Hc & Hp1 & ->).
  destruct (Node_Add_any_text _ _ _ _ Hp1) as [text Htext].
  assert (<[parent:=p1]> σ !! parent = Some p1) as H1 by apply lookup_insert_eq.
  assert (σ2 !! parent = Some p1) as H2 by (by rewrite Hsame).
  assert (Program.render σ2 parent = Node.Out p1) as Hrender.
  { unfold Program.render. by rewrite H2. }
  exists p0, ch, text, p1. split_and!; try done.
  - unfold Program.render. by rewrite Hsame.
  - intros b ->. pose proof (Node_Add_any_Block _ _ _ _ _ Htext Hp1) as ->.
    split; [done|]. rewrite Hrender. simpl. unfold out, Block.has_out. f_equal.
    by rewrite Block_Out_snoc, Snippet_Out_plain.
  - intros c ->. pose proof (Node_Add_any_Class _ _ _ _ _ Htext Hp1) as ->.
    eexists. split; [reflexivity|]. split_and!; try done.
    + intros a'. apply bucket_emplace_back.
    + intros label.
      erewrite (access_section_snoc c);
        [|done|by rewrite bucket_emplace_back, decide_True].
      by rewrite Snippet_Out_plain.
    + intros a' label Hne. apply access_section_same; [done|].
      by rewrite bucket_emplace_back, decide_False.
    + intros Hkeys. rewrite Hrender. simpl. unfold out, Class.has_out.
      by rewrite Class_Out_present by (by apply has_all_keys_emplace_back).
  - intros s ->. pose proof (Node_Add_any_Snippet _ _ _ _ _ Htext Hp1) as ->.
    split; [done|]. rewrite Hrender. simpl. unfold out, Snippet.has_out. f_equal.
    destruct s as [i H F ty lines]. simpl.
    by rewrite Snippet_Out_app, (Snippet_Out_concat (Snippet.mk i H F ty (split_lines text))).
Qed.

Lemma absorbed_node_is_snapshot_witness :
  ∃ σ1 σ2 : gmap string Node,
    Program.exec (Program.AddNode "ns" "cls" kPrivate)
      {[ "ns" := NBlock (Block.namespace "N" (Indent.new_default 0 2));
         "cls" := NClass (Class.Add (Class.new "X" (Indent.new_default 0 2)) "int x;" kPublic) ]}
    = Some σ1
    ∧ Program.run [Program.IncrementIndent "cls" 1; Program.Add "cls" "int y;" kPrivate] σ1
      = Some σ2
    ∧ Program.render σ2 "ns" = Program.render σ1 "ns"
    ∧ Program.render σ2 "ns"
      = Some ("namespace N {" +:+ nl
              +:+ "  class X {" +:+ nl
              +:+ "   public:" +:+ nl
              +:+ "    int x;" +:+ nl
              +:+ "  };" +:+ nl
              +:+ "}" +:+ nl)
    ∧ Program.render σ2 "cls"
      = Some ("  class X {" +:+ nl
              +:+ "   public:" +:+ nl
              +:+ "    int x;" +:+ nl
              +:+ "   private:" +:+ nl
              +:+ "    int y;" +:+ nl
              +:+ "  };" +:+ nl).
Proof.
  eexists _, _. split; [reflexivity|]. split; [reflexivity|].
  match goal with
  | |- Program.render ?s2 _ = Program.render ?s1 _ ∧ _ =>
      assert (Program.exec (Program.AddNode "ns" "cls" kPrivate)
                {[ "ns" := NBlock (Block.namespace "N" (Indent.new_default 0 2));
                   "cls" := NClass (Class.Add (Class.new "X" (Indent.new_default 0 2))
                                      "int x;" kPublic) ]}
              = Some s1) as Hexec by reflexivity;
      assert (Program.run
                [Program.IncrementIndent "cls" 1; Program.Add "cls" "int y;" kPrivate] s1
              = Some s2) as Hrun by reflexivity
  end.
  assert (Forall (λ st, Program.target st ≠ "ns")
            [Program.IncrementIndent "cls" 1; Program.Add "cls" "int y;" kPrivate])
    as Hprog by (repeat constructor; discriminate).
  destruct (absorbed_node_is_snapshot _ _ _ _ _ _ _ Hexec Hprog Hrun)
    as (p0 & ch & text & p1 & Hp0 & Hch & Htext & _ & _ & _ & Hsame & Hblock & _).
  split; [exact Hsame|]. split; [|reflexivity].
  vm_compute in Hp0. injection Hp0 as <-.
  vm_compute in Hch. injection Hch as <-.
  vm_compute in Htext. injection Htext as <-.
  destruct (Hblock _ eq_refl) as [_ Hrender].
  rewrite Hrender. reflexivity.
Defined.
